(** * Orca starter kit: conversation memory, stream assembly and tool calls

    A shallow embedding of the JavaScript sources
      - conversation_manager.js  (class ConversationManager),
      - agent_utils.js           (formatSystemPrompt, formatMessagesForOpenAI),
      - function_handler.js      (executeFunctionCall, executeGenerateImage,
                                  processFunctionCalls),
      - main.js                  (processMessage),
    followed by the properties of the specification that are settled on it. *)

From Stdlib Require Import ZArith Lia Ascii String.
From stdpp Require Import gmap strings list fin_maps.

Local Open Scope string_scope.
Local Open Scope list_scope.
Local Open Scope Z_scope.
Local Open Scope stdpp_scope.

(** ** Strings as JavaScript uses them *)

(** The line feed written [\n] in the sources. *)
Definition nl : string := String "010"%char EmptyString.
(** The double quote character as a one-character string. *)
Definition dq : string := String "034"%char EmptyString.

(** [s.endsWith(suffix)]: some tail of [s] is [suffix]. *)
Fixpoint endsWith (s suffix : string) : bool :=
  String.eqb s suffix ||
  match s with
  | EmptyString => false
  | String _ s' => endsWith s' suffix
  end.

(** Truthiness of a value that is a string, [undefined] or [null]:
    only a non-empty string is truthy. *)
Definition truthy (v : option string) : bool :=
  match v with
  | Some s => negb (String.eqb s EmptyString)
  | None => false
  end.

(** Template-literal conversion of a string-or-undefined value. *)
Definition show (v : option string) : string :=
  match v with
  | Some s => s
  | None => "undefined"
  end.

(** ** conversation_manager.js *)

(** A stored message: [{ role, content, timestamp }]. *)
Record Message := mkMessage {
  role : string;
  content : string;
  timestamp : string
}.

(** JavaScript arrays are objects handled by reference.  The heap maps a
    reference to the current contents of the array it denotes; a reference is
    the position of the array in the heap. *)
Abbreviation ref := nat (only parsing).
Abbreviation Heap := (list (list Message)) (only parsing).

(** The array literal [[]]: a new array, distinct from every earlier one. *)
Definition array_new (h : Heap) : ref * Heap := (length h, h ++ [[]]).
(** The elements of the array behind a reference. *)
Definition array_read (a : ref) (h : Heap) : list Message := default [] (h !! a).
(** [a.push(m)]. *)
Definition array_push (a : ref) (m : Message) (h : Heap) : Heap :=
  alter (fun l => l ++ [m]) a h.
(** [a.shift()]: drops the first element; nothing happens on an empty array. *)
Definition array_shift (a : ref) (h : Heap) : Heap := alter tail a h.
(** [a.length]. *)
Definition array_length (a : ref) (h : Heap) : nat := length (array_read a h).

(** The fields of a [ConversationManager] instance together with the heap its
    arrays live in.  [conversations] is the [Map] from thread id to array. *)
Record World := mkWorld {
  heap : Heap;
  maxHistory : Z;
  conversations : gmap string ref
}.

(** [new ConversationManager(maxHistory)], created in the heap [h]. *)
Definition new_manager (h : Heap) (maxHistory : Z) : World :=
  {| heap := h; maxHistory := maxHistory; conversations := ∅ |}.

(** [addMessage(threadId, role, content)].  [now] is the value
    [_getTimestamp()] reads from the clock. *)
Definition addMessage (threadId role content now : string) (w : World) : World :=
  let w1 :=
    if bool_decide (is_Some (conversations w !! threadId)) then w
    else let '(a, h) := array_new (heap w) in
      {| heap := h; maxHistory := maxHistory w;
         conversations := <[threadId := a]> (conversations w) |} in
  let message := {| role := role; content := content; timestamp := now |} in
  match conversations w1 !! threadId with
  | None => w1
  | Some threadHistory =>
    let h2 := array_push threadHistory message (heap w1) in
    let h3 :=
      if (Z.of_nat (array_length threadHistory h2) >? maxHistory w1)%Z
      then array_shift threadHistory h2 else h2 in
    {| heap := h3; maxHistory := maxHistory w1; conversations := conversations w1 |}
  end.

(** [getHistory(threadId)]: the stored array itself when the thread is
    known (an array is truthy even when empty), a new empty array otherwise. *)
Definition getHistory (threadId : string) (w : World) : ref * World :=
  match conversations w !! threadId with
  | Some a => (a, w)
  | None =>
    let '(a, h) := array_new (heap w) in
    (a, {| heap := h; maxHistory := maxHistory w; conversations := conversations w |})
  end.

(** [clearHistory(threadId)]. *)
Definition clearHistory (threadId : string) (w : World) : World :=
  {| heap := heap w; maxHistory := maxHistory w;
     conversations := delete threadId (conversations w) |}.

(** [getAllThreads()] as a set, and [getThreadCount()]. *)
Definition getAllThreads (w : World) : gset string := dom (conversations w).
Definition getThreadCount (w : World) : nat := size (conversations w).

(** What a caller reads in the array [getHistory(threadId)] returns. *)
Definition history (threadId : string) (w : World) : list Message :=
  let '(a, w') := getHistory threadId w in array_read a (heap w').

(** What a caller can do to an array it holds: any in-place change
    ([push], [pop], [splice], assignment to an index, ...). *)
Definition caller_mutates (a : ref) (f : list Message -> list Message) (w : World) : World :=
  {| heap := alter f a (heap w); maxHistory := maxHistory w;
     conversations := conversations w |}.

(** A request to append, as [addMessage] receives it with the clock reading. *)
Record Append := mkAppend { a_role : string; a_content : string; a_now : string }.

Definition message_of (r : Append) : Message :=
  {| role := a_role r; content := a_content r; timestamp := a_now r |}.

(** A sequence of [addMessage] calls on one thread, oldest first. *)
Definition appends (threadId : string) (rs : list Append) (w : World) : World :=
  foldl (fun w r => addMessage threadId (a_role r) (a_content r) (a_now r) w) w rs.

(** The operations of the class that change a manager. *)
Inductive Mutation :=
| MAdd (threadId : string) (r : Append)
| MClear (threadId : string).

Definition mutate (w : World) (m : Mutation) : World :=
  match m with
  | MAdd t r => addMessage t (a_role r) (a_content r) (a_now r) w
  | MClear t => clearHistory t w
  end.

(** The last [n] elements of a list. *)
Definition lastn {A} (n : nat) (l : list A) : list A := drop (length l - n) l.

(** The invariant of every state the class reaches: each stored reference
    denotes an allocated array, and no array is stored under two thread ids. *)
Definition wf (w : World) : Prop :=
  (forall t a, conversations w !! t = Some a -> (a < length (heap w))%nat) /\
  (forall t1 t2 a, conversations w !! t1 = Some a ->
     conversations w !! t2 = Some a -> t1 = t2).

(** States reached from the constructor through the class and through
    callers changing arrays they were handed. *)
Inductive reachable : World -> Prop :=
| reach_new h mh : reachable (new_manager h mh)
| reach_add t r c now w : reachable w -> reachable (addMessage t r c now w)
| reach_clear t w : reachable w -> reachable (clearHistory t w)
| reach_get t w : reachable w -> reachable (getHistory t w).2
| reach_caller a f w : reachable w -> reachable (caller_mutates a f w).

(** What one [addMessage] leaves of an array that received a message. *)
Definition evict (mh : Z) (l : list Message) : list Message :=
  if (Z.of_nat (length l) >? mh)%Z then tail l else l.

(** ** Values and effects of the JavaScript runtime *)

#[local] Set Warnings "-register-all".

(** The values [JSON.parse] produces.  A number is kept as the text of its
    literal; the members of an object are kept in the order of the text. *)
Inductive JSON :=
| JNull
| JBool (b : bool)
| JNumber (literal : string)
| JString (s : string)
| JArray (items : list JSON)
| JObject (members : list (string * JSON)).

(** How an evaluation ends: with a value, or with a thrown error, of which
    the sources only ever read [error.message]. *)
Inductive Completion (A : Type) :=
| Normal (a : A)
| Throw (message : string).
Arguments Normal {A} a.
Arguments Throw {A} message.

(** Built-ins of the language the sources call. *)
Class Runtime := {
  (** [JSON.parse(text)]: the value, or the message of the [SyntaxError]. *)
  JSON_parse : string -> Completion JSON;
  (** [JSON.stringify(value, null, 2)]. *)
  JSON_stringify : JSON -> string;
  (** Conversion to string in a template literal; [None] is [undefined]. *)
  ToString : option JSON -> string;
  (** Truthiness, as [||] tests it. *)
  ToBoolean : JSON -> bool
}.

(** [value.p] for one of the property names the sources read ([prompt],
    [size], [quality], [style]): a member of an object (the last one of that
    name, as [JSON.parse] keeps it), a [TypeError] on [null], and [undefined]
    on a boolean, a number, a string or an array. *)
Definition get_property (value : JSON) (p : string) : Completion (option JSON) :=
  match value with
  | JNull => Throw ("Cannot read properties of null (reading '" +:+ p +:+ "')")
  | JObject members =>
    Normal (snd <$> last (filter (fun kv => bool_decide (fst kv = p)) members))
  | _ => Normal None
  end.

(** ** The platform and the services behind it *)

(** An entry of [data.variables]. *)
Record VariableEntry := { var_name : string; var_value : string }.

(** [chunk.usage]. *)
Record Usage := { prompt_tokens : nat; completion_tokens : nat; total_tokens : nat }.

(** An element of [delta.tool_calls]. *)
Record ToolCallFunction := {
  tcf_name : option string;
  tcf_arguments : option string
}.
Record ToolCallDelta := {
  tc_index : nat;
  tc_id : option string;
  tc_function : option ToolCallFunction
}.

(** A chunk of the completion stream, as far as [processMessage] reads it:
    [choices[0]?.delta?.content], [choices[0]?.delta?.tool_calls] and
    [usage]. *)
Record Chunk := {
  delta_content : option string;
  delta_tool_calls : option (list ToolCallDelta);
  chunk_usage : option Usage
}.

(** The async iterable returned by the completion call: the chunks it
    yields, and the error it raises after them if it fails. *)
Record Stream := { chunks : list Chunk; failure : option string }.

(** The content of a message sent to the model: text, or text with an image. *)
Inductive Content :=
| Text (text : string)
| TextAndImage (text : string) (url : string).

(** A message in the format of the completion API. *)
Record OpenAIMessage := { msg_role : string; msg_content : Content }.

(** The incoming [ChatMessage]. *)
Record ChatMessage := {
  thread_id : string;
  message : string;
  model : string;
  system_message : option string;
  project_system_message : option string;
  variables : option (list VariableEntry);
  file_type : option string;
  file_url : option string
}.

(** The collaborators reached over the network or through the SDK. *)
Class Services := {
  (** [new Variables(variables).get(name)]. *)
  Variables_get : option (list VariableEntry) -> string -> option string;
  (** [client.chat.completions.create({ model, messages, tools, ... })] of a
      client made with [apiKey]. *)
  chat_completions_create : string -> string -> list OpenAIMessage -> Completion Stream;
  (** [client.images.generate({ prompt, size, quality, style, ... })] of a
      client made with [apiKey], followed by the read of [data[0].url]. *)
  images_generate :
    string -> option JSON -> JSON -> JSON -> JSON -> Completion (option string);
  (** Download of a PDF, text extraction and token count: the text. *)
  fetch_pdf_text : string -> Completion string
}.

(** What the handler sends to the platform, in the order it is sent. *)
Inductive LexiaCall :=
| StreamChunk (content : string)
| CompleteResponse (response : string) (usage : option Usage) (file : option string)
| SendError (message : string).

(** The state a request runs in: the conversation manager of the process
    and the calls made to the platform so far. *)
Record Env := { world : World; lexia : list LexiaCall }.

(** Computations over that state which may throw. *)
Definition M (A : Type) : Type := Env -> Env * Completion A.

Definition ret {A} (a : A) : M A := fun e => (e, Normal a).

Definition bind {A B} (m : M A) (k : A -> M B) : M B := fun e =>
  match m e with
  | (e', Normal a) => k a e'
  | (e', Throw msg) => (e', Throw msg)
  end.

Definition throw {A} (msg : string) : M A := fun e => (e, Throw msg).

(** [try { m } catch (error) { handler(error.message) }]. *)
Definition try_catch {A} (m : M A) (handler : string -> M A) : M A := fun e =>
  match m e with
  | (e', Normal a) => (e', Normal a)
  | (e', Throw msg) => handler msg e'
  end.

Definition lift {A} (c : Completion A) : M A := fun e => (e, c).

Declare Scope js_scope.
Delimit Scope js_scope with js.
Notation "x <- m ;; k" := (bind m (fun x => k))
  (at level 100, m at next level, right associativity) : js_scope.
Notation "m ;; k" := (bind m (fun _ => k))
  (at level 100, right associativity) : js_scope.
Local Open Scope js_scope.

(** A call to the platform is recorded and returns: the handler of the SDK
    is fire-and-forget for the sources, which never look at what it returns. *)
Definition send (c : LexiaCall) : M unit := fun e =>
  ({| world := world e; lexia := lexia e ++ [c] |}, Normal tt).

(** [lexia.streamChunk(data, content)]. *)
Definition streamChunk (content : string) : M unit := send (StreamChunk content).
(** [lexia.completeResponse(data, response, usage, file)]. *)
Definition completeResponse (response : string) (usage : option Usage)
  (file : option string) : M unit := send (CompleteResponse response usage file).
(** [lexia.sendError(data, message)]. *)
Definition sendError (msg : string) : M unit := send (SendError msg).

(** A change of the conversation manager. *)
Definition update_world (f : World -> World) : M unit := fun e =>
  ({| world := f (world e); lexia := lexia e |}, Normal tt).

(** A [for (const x of l)] loop whose body updates the local state [s]. *)
Fixpoint forEach {A S} (l : list A) (body : A -> S -> M S) (s : S) : M S :=
  match l with
  | [] => ret s
  | x :: l' => s' <- body x s ;; forEach l' body s'
  end.

(** ** agent_utils.js *)

Definition formatSystemPrompt (systemMessage projectSystemMessage : option string) : string :=
  let basePrompt := "You are a helpful AI assistant." in
  let basePrompt := if truthy systemMessage then show systemMessage else basePrompt in
  let basePrompt :=
    if truthy projectSystemMessage
    then basePrompt +:+ nl +:+ nl +:+ "Project Context: " +:+ show projectSystemMessage
    else basePrompt in
  basePrompt.

Definition formatMessagesForOpenAI (systemPrompt : string)
  (conversationHistory : list Message) (currentMessage : string) : list OpenAIMessage :=
  let messages := [ {| msg_role := "system"; msg_content := Text systemPrompt |} ] in
  let messages :=
    foldl (fun messages msg =>
             messages ++ [ {| msg_role := role msg; msg_content := Text (content msg) |} ])
          messages conversationHistory in
  messages ++ [ {| msg_role := "user"; msg_content := Text currentMessage |} ].

(** ** function_handler.js *)

(** An element of [functionCalls]:
    [{ id, type: "function", function: { name, arguments } }]. *)
Record FunctionRef := { name : option string; arguments : string }.
Record FunctionCall := {
  fc_id : option string;
  fc_type : string;
  fc_function : FunctionRef
}.

(** [{ result, fileUrl }]. *)
Record ExecResult := { result : string; fileUrl : option string }.

(** [value || fallback] for a property read from the parsed arguments. *)
Definition or_default {rt : Runtime} (value : option JSON) (fallback : string) : JSON :=
  match value with
  | Some v => if ToBoolean v then v else JString fallback
  | None => JString fallback
  end.

Section Handlers.
Context {rt : Runtime} {sv : Services}.

Definition generateImageWithDALLE (prompt : option JSON)
  (variables : option (list VariableEntry)) (size quality style : JSON)
  : M (option string) :=
  try_catch
    (match variables with
     | None => throw "Variables not provided to generateImageWithDALLE"
     | Some _ =>
       let openaiApiKey := Variables_get variables "OPENAI_API_KEY" in
       if negb (truthy openaiApiKey)
       then throw "OpenAI API key not found in variables"
       else lift (images_generate (show openaiApiKey) prompt size quality style)
     end)
    (fun msg => throw ("Error generating image with DALL-E: " +:+ msg)).

(** The text [executeGenerateImage] returns when something in it throws. *)
Definition generate_image_error (msg : string) : string :=
  nl +:+ nl +:+ "❌ **Function Execution Error:** "
     +:+ "Error executing generate_image function: " +:+ msg.

Definition executeGenerateImage (functionCall : FunctionCall) (data : ChatMessage)
  : M ExecResult :=
  try_catch
    (args <- lift (JSON_parse (arguments (fc_function functionCall))) ;;
     streamChunk (nl +:+ "🚀 **Executing function:** generate_image") ;;
     streamChunk "[orca.loading.image.start]" ;;
     prompt <- lift (get_property args "prompt") ;;
     size <- lift (get_property args "size") ;;
     quality <- lift (get_property args "quality") ;;
     style <- lift (get_property args "style") ;;
     imageUrl <- generateImageWithDALLE prompt (variables data)
                   (or_default size "1024x1024") (or_default quality "standard")
                   (or_default style "vivid") ;;
     streamChunk "[orca.loading.image.end]" ;;
     streamChunk (nl +:+ "✅ **Function completed successfully:** generate_image") ;;
     let imageResult :=
       nl +:+ nl +:+ "🎨 **Image Generated Successfully!**" +:+ nl +:+ nl
          +:+ "**Prompt:** " +:+ ToString prompt +:+ nl
          +:+ "**Image URL:** [orca.image.start]" +:+ show imageUrl
          +:+ "[orca.image.end] " +:+ nl +:+ nl +:+ "*Image created with DALL-E 3*" in
     streamChunk imageResult ;;
     ret {| result := imageResult; fileUrl := imageUrl |})
    (fun msg => ret {| result := generate_image_error msg; fileUrl := None |}).

(** The text [executeFunctionCall] returns for a name it does not know. *)
Definition unknown_function_error (functionName : option string) : string :=
  nl +:+ nl +:+ "❌ **Function Error:** " +:+ "Unknown function: " +:+ show functionName.

Definition executeFunctionCall (functionCall : FunctionCall) (data : ChatMessage)
  : M ExecResult :=
  try_catch
    (let functionName := name (fc_function functionCall) in
     streamChunk (nl +:+ "⚙️ **Processing function:** " +:+ show functionName) ;;
     if bool_decide (functionName = Some "generate_image")
     then executeGenerateImage functionCall data
     else ret {| result := unknown_function_error functionName; fileUrl := None |})
    (fun msg =>
       let errorMsg := "Error executing function "
                       +:+ show (name (fc_function functionCall)) +:+ ": " +:+ msg in
       ret {| result := nl +:+ nl +:+ "❌ **Function Execution Error:** " +:+ errorMsg;
              fileUrl := None |}).

(** The body of the loop of [processFunctionCalls]; the local state is
    [(combinedResult, generatedFileUrl)]. *)
Definition processFunctionCalls_step (data : ChatMessage) (functionCall : FunctionCall)
  (s : string * option string) : M (string * option string) :=
  let '(combinedResult, generatedFileUrl) := s in
  try_catch
    (r <- executeFunctionCall functionCall data ;;
     let combinedResult := combinedResult +:+ result r in
     ret (combinedResult,
          if truthy (fileUrl r) && negb (truthy generatedFileUrl)
          then fileUrl r else generatedFileUrl))
    (fun msg =>
       let errorMsg := "Error processing function call: " +:+ msg in
       ret (combinedResult +:+ nl +:+ nl +:+ "❌ **Function Processing Error:** " +:+ errorMsg,
            generatedFileUrl)).

Definition processFunctionCalls (functionCalls : list FunctionCall) (data : ChatMessage)
  : M ExecResult :=
  if (length functionCalls =? 0)%nat
  then ret {| result := EmptyString; fileUrl := None |}
  else
    s <- forEach functionCalls (processFunctionCalls_step data) (EmptyString, None) ;;
    ret {| result := fst s; fileUrl := snd s |}.

(** ** main.js *)

(** The local variables of the streaming loop of [processMessage]. *)
Record Locals := {
  fullResponse : string;
  usageInfo : option Usage;
  functionCalls : list FunctionCall
}.

(** The progress message for the accumulated arguments. *)
Definition progressMsg (parsedArgs : JSON) : string :=
  nl +:+ "⚙️ **Function parameters:** " +:+ JSON_stringify parsedArgs.

(** The body of [for (const toolCall of chunk.choices[0].delta.tool_calls)]. *)
Definition processToolCall (toolCall : ToolCallDelta) (functionCalls : list FunctionCall)
  : M (list FunctionCall) :=
  match tc_function toolCall with
  | None => ret functionCalls
  | Some fn =>
    functionCalls <-
      (if (length functionCalls <=? tc_index toolCall)%nat
       then
         let functionCalls := functionCalls ++
           [ {| fc_id := tc_id toolCall; fc_type := "function";
                fc_function := {| name := tcf_name fn; arguments := EmptyString |} |} ] in
         streamChunk (nl +:+ "🔧 **Calling function:** " +:+ show (tcf_name fn)) ;;
         ret functionCalls
       else ret functionCalls) ;;
    if truthy (tcf_arguments fn) then
      match functionCalls !! tc_index toolCall with
      | None => throw "Cannot read properties of undefined (reading 'function')"
      | Some slot =>
        let currentArgs := arguments (fc_function slot) +:+ show (tcf_arguments fn) in
        let functionCalls :=
          <[tc_index toolCall :=
              {| fc_id := fc_id slot; fc_type := fc_type slot;
                 fc_function := {| name := name (fc_function slot);
                                   arguments := currentArgs |} |}]> functionCalls in
        try_catch
          (if endsWith currentArgs dq || endsWith currentArgs "}" || endsWith currentArgs "]"
           then parsedArgs <- lift (JSON_parse currentArgs) ;;
                streamChunk (progressMsg parsedArgs)
           else ret tt)
          (fun _ => ret tt) ;;
        ret functionCalls
      end
    else ret functionCalls
  end.

(** The body of [for await (const chunk of stream)]. *)
Definition processChunk (chunk : Chunk) (s : Locals) : M Locals :=
  s <- (if truthy (delta_content chunk) then
          let content := show (delta_content chunk) in
          let s := {| fullResponse := fullResponse s +:+ content;
                      usageInfo := usageInfo s; functionCalls := functionCalls s |} in
          streamChunk content ;; ret s
        else ret s) ;;
  s <- match delta_tool_calls chunk with
       | Some tool_calls =>
         fcs <- forEach tool_calls processToolCall (functionCalls s) ;;
         ret {| fullResponse := fullResponse s; usageInfo := usageInfo s;
                functionCalls := fcs |}
       | None => ret s
       end ;;
  match chunk_usage chunk with
  | Some usage => ret {| fullResponse := fullResponse s; usageInfo := Some usage;
                         functionCalls := functionCalls s |}
  | None => ret s
  end.

(** The whole loop: every chunk in turn, then the failure of the stream, if
    it has one. *)
Definition forAwait (stream : Stream) (s : Locals) : M Locals :=
  s <- forEach (chunks stream) processChunk s ;;
  match failure stream with
  | Some msg => throw msg
  | None => ret s
  end.

(** [messages[messages.length - 1].content = f(...)] under the test
    [messages.length > 0 && messages[messages.length - 1].role === 'user']. *)
Definition set_last_user_content (f : Content -> Content) (messages : list OpenAIMessage)
  : list OpenAIMessage :=
  match last messages with
  | Some m =>
    if String.eqb (msg_role m) "user"
    then <[pred (length messages) := {| msg_role := msg_role m;
                                        msg_content := f (msg_content m) |}]> messages
    else messages
  | None => messages
  end.

(** The text of a content that is still a string. *)
Definition content_text (c : Content) : string :=
  match c with Text t => t | TextAndImage t _ => t end.

Definition missingKeyMsg : string :=
  "Sorry, the OpenAI API key is missing or empty. From menu right go to admin mode, then agents and edit the agent in last section you can set the openai key.".

Definition initial_locals : Locals :=
  {| fullResponse := EmptyString; usageInfo := None; functionCalls := [] |}.

(** The array behind a reference, as a loop over it reads it. *)
Definition read_array (a : ref) : M (list Message) := fun e =>
  (e, Normal (array_read a (heap (world e)))).

(** [conversationManager.getHistory(threadId)]. *)
Definition conversationManager_getHistory (threadId : string) : M ref := fun e =>
  let '(a, w) := getHistory threadId (world e) in
  ({| world := w; lexia := lexia e |}, Normal a).

(** [processMessage(data)].  [now_user] and [now_assistant] are the two
    readings of the clock its calls of [addMessage] make. *)
Definition processMessage (data : ChatMessage) (now_user now_assistant : string) : M unit :=
  try_catch
    (let openaiApiKey := Variables_get (variables data) "OPENAI_API_KEY" in
     if negb (truthy openaiApiKey) then
       streamChunk missingKeyMsg ;;
       completeResponse missingKeyMsg None None
     else
       update_world (addMessage (thread_id data) "user" (message data) now_user) ;;
       threadHistory <- conversationManager_getHistory (thread_id data) ;;
       let systemPrompt :=
         formatSystemPrompt (system_message data) (project_system_message data) in
       conversationHistory <- read_array threadHistory ;;
       let messages :=
         formatMessagesForOpenAI systemPrompt conversationHistory (message data) in
       messages <-
         (if bool_decide (file_type data = Some "pdf") && truthy (file_url data) then
            try_catch
              (pdfText <- lift (fetch_pdf_text (show (file_url data))) ;;
               let combinedContent :=
                 message data +:+ nl +:+ nl +:+ "PDF Content:" +:+ nl +:+ pdfText in
               ret (set_last_user_content (fun _ => Text combinedContent) messages))
              (fun _ => ret messages)
          else if bool_decide (file_type data = Some "image") && truthy (file_url data) then
            ret (set_last_user_content
                   (fun c => TextAndImage (content_text c) (show (file_url data))) messages)
          else ret messages) ;;
       stream <- lift (chat_completions_create (show openaiApiKey) (model data) messages) ;;
       s <- forAwait stream initial_locals ;;
       r <- processFunctionCalls (functionCalls s) data ;;
       let fullResponse :=
         if truthy (Some (result r)) then fullResponse s +:+ result r else fullResponse s in
       let generatedImageUrl := if truthy (fileUrl r) then fileUrl r else None in
       update_world (addMessage (thread_id data) "assistant" fullResponse now_assistant) ;;
       if truthy generatedImageUrl
       then completeResponse fullResponse (usageInfo s) generatedImageUrl
       else completeResponse fullResponse (usageInfo s) None)
    (fun msg => sendError ("Error processing message: " +:+ msg)).

End Handlers.

(** ** A reference runtime

    An executable instance of [Runtime], used to run the handlers on concrete
    inputs.  Its parser follows the JSON grammar (RFC 8259) on byte strings,
    without [\u] escapes; a number is printed as it was written, and the
    messages of its errors are its own (every engine words them its way). *)

Definition is_ws (c : ascii) : bool :=
  Ascii.eqb c " " || Ascii.eqb c "009" || Ascii.eqb c "010" || Ascii.eqb c "013".

Fixpoint skip_ws (s : string) : string :=
  match s with
  | String c s' => if is_ws c then skip_ws s' else s
  | EmptyString => s
  end.

Definition is_digit (c : ascii) : bool :=
  (48 <=? nat_of_ascii c)%nat && (nat_of_ascii c <=? 57)%nat.

(** The longest prefix of digits, and what follows it. *)
Fixpoint span_digits (s : string) : string * string :=
  match s with
  | String c s' =>
    if is_digit c then let '(d, r) := span_digits s' in (String c d, r)
    else (EmptyString, s)
  | EmptyString => (EmptyString, s)
  end.

(** A number literal at the head of [s]: its text and the rest. *)
Definition parse_number (s : string) : option (string * string) :=
  let '(sign, s1) :=
    match s with
    | String "-" r => ("-", r)
    | _ => (EmptyString, s)
    end in
  let '(int, s2) := span_digits s1 in
  let int_ok :=
    match int with
    | EmptyString => false
    | String "0" (String _ _) => false
    | _ => true
    end in
  if negb int_ok then None else
  let frac :=
    match s2 with
    | String "." r =>
      let '(d, r') := span_digits r in
      if String.eqb d EmptyString then None else Some ("." +:+ d, r')
    | _ => Some (EmptyString, s2)
    end in
  match frac with
  | None => None
  | Some (fr, s3) =>
    let exp (e : string) (r : string) :=
      let '(sg, r1) :=
        match r with
        | String "+" r' => ("+", r')
        | String "-" r' => ("-", r')
        | _ => (EmptyString, r)
        end in
      let '(d, r2) := span_digits r1 in
      if String.eqb d EmptyString then None
      else Some (sign +:+ int +:+ fr +:+ e +:+ sg +:+ d, r2) in
    match s3 with
    | String "e" r => exp "e" r
    | String "E" r => exp "E" r
    | _ => Some (sign +:+ int +:+ fr, s3)
    end
  end.

(** The characters of a string literal after its opening quote, up to the
    closing quote, and the rest. *)
Fixpoint parse_string_body (s : string) : option (string * string) :=
  match s with
  | EmptyString => None
  | String c rest =>
    if Ascii.eqb c "034" then Some (EmptyString, rest)
    else if Ascii.eqb c "\" then
      match rest with
      | String e rest' =>
        let unescaped : option ascii :=
          if Ascii.eqb e "034" then Some "034"%char
          else if Ascii.eqb e "\" then Some "\"%char
          else if Ascii.eqb e "/" then Some "/"%char
          else if Ascii.eqb e "b" then Some "008"%char
          else if Ascii.eqb e "f" then Some "012"%char
          else if Ascii.eqb e "n" then Some "010"%char
          else if Ascii.eqb e "r" then Some "013"%char
          else if Ascii.eqb e "t" then Some "009"%char
          else None in
        match unescaped, parse_string_body rest' with
        | Some u, Some (str, r) => Some (String u str, r)
        | _, _ => None
        end
      | EmptyString => None
      end
    else if (nat_of_ascii c <? 32)%nat then None
    else
      match parse_string_body rest with
      | Some (str, r) => Some (String c str, r)
      | None => None
      end
  end.

(** [s] without the prefix [p], when it starts with it. *)
Fixpoint strip_prefix (p s : string) : option string :=
  match p, s with
  | EmptyString, _ => Some s
  | String a p', String b s' => if Ascii.eqb a b then strip_prefix p' s' else None
  | _, _ => None
  end.

(** A value at the head of [s] (after white space) and the rest;
    [parse_elements] and [parse_members] read what follows the first
    element of an array and the first member of an object. *)
Fixpoint parse_value (fuel : nat) (s : string) : option (JSON * string) :=
  match fuel with
  | O => None
  | S fuel =>
    match skip_ws s with
    | String "n" _ => (fun r => (JNull, r)) <$> strip_prefix "null" (skip_ws s)
    | String "t" _ => (fun r => (JBool true, r)) <$> strip_prefix "true" (skip_ws s)
    | String "f" _ => (fun r => (JBool false, r)) <$> strip_prefix "false" (skip_ws s)
    | String "034" r =>
      match parse_string_body r with
      | Some (str, r') => Some (JString str, r')
      | None => None
      end
    | String "[" r =>
      match skip_ws r with
      | String "]" r' => Some (JArray [], r')
      | _ =>
        match parse_value fuel r with
        | Some (v, r') =>
          match parse_elements fuel r' with
          | Some (vs, r'') => Some (JArray (v :: vs), r'')
          | None => None
          end
        | None => None
        end
      end
    | String "{" r =>
      match skip_ws r with
      | String "}" r' => Some (JObject [], r')
      | _ =>
        match parse_members fuel (String "," r) with
        | Some (ms, r') => Some (JObject ms, r')
        | None => None
        end
      end
    | s' =>
      match parse_number s' with
      | Some (n, r) => Some (JNumber n, r)
      | None => None
      end
    end
  end
with parse_elements (fuel : nat) (s : string) : option (list JSON * string) :=
  match fuel with
  | O => None
  | S fuel =>
    match skip_ws s with
    | String "]" r => Some ([], r)
    | String "," r =>
      match parse_value fuel r with
      | Some (v, r') =>
        match parse_elements fuel r' with
        | Some (vs, r'') => Some (v :: vs, r'')
        | None => None
        end
      | None => None
      end
    | _ => None
    end
  end
with parse_members (fuel : nat) (s : string) : option (list (string * JSON) * string) :=
  match fuel with
  | O => None
  | S fuel =>
    match skip_ws s with
    | String "}" r => Some ([], r)
    | String "," r =>
      match skip_ws r with
      | String "034" r1 =>
        match parse_string_body r1 with
        | Some (key, r2) =>
          match skip_ws r2 with
          | String ":" r3 =>
            match parse_value fuel r3 with
            | Some (v, r4) =>
              match parse_members fuel r4 with
              | Some (ms, r5) => Some ((key, v) :: ms, r5)
              | None => None
              end
            | None => None
            end
          | _ => None
          end
        | None => None
        end
      | _ => None
      end
    | _ => None
    end
  end.

Definition reference_parse (text : string) : Completion JSON :=
  match parse_value (2 * String.length text + 2) text with
  | Some (v, rest) =>
    if String.eqb (skip_ws rest) EmptyString then Normal v
    else Throw "Unexpected non-whitespace character after JSON"
  | None => Throw "Unexpected token or end of JSON input"
  end.

(** A string literal of JSON text. *)
Fixpoint quote_body (s : string) : string :=
  match s with
  | EmptyString => EmptyString
  | String c s' =>
    (if Ascii.eqb c "034" then "\" +:+ dq
     else if Ascii.eqb c "\" then "\\"
     else if Ascii.eqb c "010" then "\n"
     else String c EmptyString) +:+ quote_body s'
  end.
Definition quote (s : string) : string := dq +:+ quote_body s +:+ dq.

(** [parts] separated by a comma and a new line. *)
Fixpoint join_lines (parts : list string) : string :=
  match parts with
  | [] => EmptyString
  | [p] => p
  | p :: ps => p +:+ "," +:+ nl +:+ join_lines ps
  end.

(** Printing with the given current indentation, two spaces per level. *)
Fixpoint reference_print (indent : string) (v : JSON) : string :=
  match v with
  | JNull => "null"
  | JBool true => "true"
  | JBool false => "false"
  | JNumber n => n
  | JString s => quote s
  | JArray [] => "[]"
  | JArray items =>
    "[" +:+ nl +:+
    join_lines (map (fun x => indent +:+ "  " +:+ reference_print (indent +:+ "  ") x) items)
    +:+ nl +:+ indent +:+ "]"
  | JObject [] => "{}"
  | JObject members =>
    "{" +:+ nl +:+
    join_lines (map (fun kv => indent +:+ "  " +:+ quote (fst kv) +:+ ": "
                               +:+ reference_print (indent +:+ "  ") (snd kv)) members)
    +:+ nl +:+ indent +:+ "}"
  end.

Fixpoint join_commas (parts : list string) : string :=
  match parts with
  | [] => EmptyString
  | [p] => p
  | p :: ps => p +:+ "," +:+ join_commas ps
  end.

Fixpoint reference_ToString_value (v : JSON) : string :=
  match v with
  | JNull => "null"
  | JBool true => "true"
  | JBool false => "false"
  | JNumber n => n
  | JString s => s
  | JArray items =>
    join_commas (map (fun x => match x with
                               | JNull => EmptyString
                               | _ => reference_ToString_value x
                               end) items)
  | JObject _ => "[object Object]"
  end.

Definition reference_ToString (v : option JSON) : string :=
  match v with
  | Some v => reference_ToString_value v
  | None => "undefined"
  end.

(** A number literal denotes zero when its digits before the exponent are
    all zeros. *)
Fixpoint mantissa_is_zero (s : string) : bool :=
  match s with
  | EmptyString => true
  | String c s' =>
    if Ascii.eqb c "e" || Ascii.eqb c "E" then true
    else if Ascii.eqb c "-" || Ascii.eqb c "." || Ascii.eqb c "0" then mantissa_is_zero s'
    else false
  end.

Definition reference_ToBoolean (v : JSON) : bool :=
  match v with
  | JNull => false
  | JBool b => b
  | JNumber n => negb (mantissa_is_zero n)
  | JString s => negb (String.eqb s EmptyString)
  | JArray _ | JObject _ => true
  end.

Definition reference_runtime : Runtime :=
  {| JSON_parse := reference_parse;
     JSON_stringify := reference_print EmptyString;
     ToString := reference_ToString;
     ToBoolean := reference_ToBoolean |}.

(** Services for the examples: variables are looked up by name in the list
    of entries; the completion call yields [stream], the image call [image]
    and the PDF pipeline [pdf]. *)
Definition reference_services (stream : Completion Stream)
  (image : Completion (option string)) (pdf : Completion string) : Services :=
  {| Variables_get := fun vars n =>
       var_value <$> head (filter (fun v => bool_decide (var_name v = n)) (default [] vars));
     chat_completions_create := fun _ _ _ => stream;
     images_generate := fun _ _ _ _ _ => image;
     fetch_pdf_text := fun _ => pdf |}.

(** ** Notions the properties are stated with *)

(** The state after further calls to the platform. *)
Definition push_calls (cs : list LexiaCall) (e : Env) : Env :=
  {| world := world e; lexia := lexia e ++ cs |}.

(** [m] leaves the conversation manager alone, makes exactly the calls [cs]
    to the platform, in that order, and ends with [c], in whatever state
    it is run. *)
Definition emits {A} (m : M A) (cs : list LexiaCall) (c : Completion A) : Prop :=
  forall e, m e = (push_calls cs e, c).

(** [m] is such a computation and all its calls stream chunks;
    [returns m] when moreover it never throws. *)
Definition traced {A} (m : M A) : Prop :=
  exists ss c, emits m (map StreamChunk ss) c.
Definition returns {A} (m : M A) : Prop :=
  exists ss a, emits m (map StreamChunk ss) (Normal a).

(** [t] occurs in [s]. *)
Definition substring (t s : string) : Prop :=
  exists pre post, s = pre +:+ t +:+ post.

(** Concatenation of strings, first to last. *)
Definition concat_strings (l : list string) : string :=
  foldr String.append EmptyString l.


(** [chunk.choices[0].delta.content] when it is truthy. *)
Definition text_fragments (cs : list Chunk) : list string :=
  omap (fun c => if truthy (delta_content c) then delta_content c else None) cs.

(** The events of the specification as chunks of the stream. *)
Definition TextDelta (fragment : string) : Chunk :=
  {| delta_content := Some fragment; delta_tool_calls := None; chunk_usage := None |}.
Definition ToolCallDeltaEvent (index : nat) (callId toolName argumentFragment : option string)
  : Chunk :=
  {| delta_content := None;
     delta_tool_calls :=
       Some [ {| tc_index := index; tc_id := callId;
                 tc_function := Some {| tcf_name := toolName;
                                        tcf_arguments := argumentFragment |} |} ];
     chunk_usage := None |}.
Definition UsageReport (u : Usage) : Chunk :=
  {| delta_content := None; delta_tool_calls := None; chunk_usage := Some u |}.

(** The guard in front of the progress parse. *)
Definition looks_complete (currentArgs : string) : bool :=
  endsWith currentArgs dq || endsWith currentArgs "}" || endsWith currentArgs "]".

(** The progress notification for the accumulated text [currentArgs]: one
    chunk when the text passes the guard and parses, none otherwise. *)
Definition progress_calls {rt : Runtime} (currentArgs : string) : list LexiaCall :=
  if looks_complete currentArgs then
    match JSON_parse currentArgs with
    | Normal parsedArgs => [StreamChunk (progressMsg parsedArgs)]
    | Throw _ => []
    end
  else [].

(** The text a chunk contributes to the response. *)
Definition chunk_text (c : Chunk) : string := default EmptyString (delta_content c).

(** A slot with its argument text replaced. *)
Definition with_arguments (slot : FunctionCall) (args : string) : FunctionCall :=
  {| fc_id := fc_id slot; fc_type := fc_type slot;
     fc_function := {| name := name (fc_function slot); arguments := args |} |}.

(** The slot a first delta creates. *)
Definition new_slot (toolCall : ToolCallDelta) (fn : ToolCallFunction) : FunctionCall :=
  {| fc_id := tc_id toolCall; fc_type := "function";
     fc_function := {| name := tcf_name fn; arguments := EmptyString |} |}.

(** The announcement of a new tool call. *)
Definition announceMsg (toolName : option string) : string :=
  nl +:+ "🔧 **Calling function:** " +:+ show toolName.

(** The ways an invocation fails in [executeFunctionCall], each with the
    text the handler returns for it: a name other than [generate_image],
    argument text [JSON.parse] rejects, arguments that are [null], and an
    image request that throws. *)
Inductive invocation_fails {rt : Runtime} {sv : Services} (data : ChatMessage) (fc : FunctionCall)
  : string -> Prop :=
| fails_unknown :
    name (fc_function fc) <> Some "generate_image" ->
    invocation_fails data fc (unknown_function_error (name (fc_function fc)))
| fails_parse msg :
    name (fc_function fc) = Some "generate_image" ->
    JSON_parse (arguments (fc_function fc)) = Throw msg ->
    invocation_fails data fc (generate_image_error msg)
| fails_null :
    name (fc_function fc) = Some "generate_image" ->
    JSON_parse (arguments (fc_function fc)) = Normal JNull ->
    invocation_fails data fc
      (generate_image_error "Cannot read properties of null (reading 'prompt')")
| fails_image args prompt size quality style msg :
    name (fc_function fc) = Some "generate_image" ->
    JSON_parse (arguments (fc_function fc)) = Normal args ->
    get_property args "prompt" = Normal prompt ->
    get_property args "size" = Normal size ->
    get_property args "quality" = Normal quality ->
    get_property args "style" = Normal style ->
    emits (generateImageWithDALLE prompt (variables data)
             (or_default size "1024x1024") (or_default quality "standard")
             (or_default style "vivid")) [] (Throw msg) ->
    invocation_fails data fc (generate_image_error msg).

(** The first truthy [fileUrl] among results. *)
Fixpoint first_fileUrl (rs : list ExecResult) : option string :=
  match rs with
  | [] => None
  | r :: rs' => if truthy (fileUrl r) then fileUrl r else first_fileUrl rs'
  end.

(** The file kept by the loop of [processFunctionCalls]. *)
Definition pick_fileUrl (generatedFileUrl : option string) (r : ExecResult) : option string :=
  if truthy (fileUrl r) && negb (truthy generatedFileUrl)
  then fileUrl r else generatedFileUrl.


(** The conversation manager after a request that went through. *)
Definition world_after (data : ChatMessage) (now_user now_assistant text : string)
  (w : World) : World :=
  addMessage (thread_id data) "assistant" text now_assistant
    (getHistory (thread_id data)
       (addMessage (thread_id data) "user" (message data) now_user w)).2.


(** ** Pieces of [processMessage] *)

Section Pieces.
Context {rt : Runtime} {sv : Services}.

(** The handling of an attached file in [processMessage]: the statements
    between the formatting of the messages and the completion call. *)
Definition file_handling (data : ChatMessage) (messages : list OpenAIMessage)
  : M (list OpenAIMessage) :=
  if bool_decide (file_type data = Some "pdf") && truthy (file_url data) then
    try_catch
      (pdfText <- lift (fetch_pdf_text (show (file_url data))) ;;
       let combinedContent :=
         message data +:+ nl +:+ nl +:+ "PDF Content:" +:+ nl +:+ pdfText in
       ret (set_last_user_content (fun _ => Text combinedContent) messages))
      (fun _ => ret messages)
  else if bool_decide (file_type data = Some "image") && truthy (file_url data) then
    ret (set_last_user_content
           (fun c => TextAndImage (content_text c) (show (file_url data))) messages)
  else ret messages.

(** The statements of [processMessage] from the completion call to the end
    of the [try] block. *)
Definition processMessage_rest (data : ChatMessage) (now_assistant : string)
  (openaiApiKey : option string) (messages : list OpenAIMessage) : M unit :=
  stream <- lift (chat_completions_create (show openaiApiKey) (model data) messages) ;;
  s <- forAwait stream initial_locals ;;
  r <- processFunctionCalls (functionCalls s) data ;;
  let fullResponse :=
    if truthy (Some (result r)) then fullResponse s +:+ result r else fullResponse s in
  let generatedImageUrl := if truthy (fileUrl r) then fileUrl r else None in
  update_world (addMessage (thread_id data) "assistant" fullResponse now_assistant) ;;
  if truthy generatedImageUrl
  then completeResponse fullResponse (usageInfo s) generatedImageUrl
  else completeResponse fullResponse (usageInfo s) None.

End Pieces.

(** The messages [processMessage] formats for a request, in the manager [w]
    it finds: the user turn is stored first, then the history is read. *)
Definition formatted_messages (data : ChatMessage) (now_user : string) (w : World)
  : list OpenAIMessage :=
  formatMessagesForOpenAI
    (formatSystemPrompt (system_message data) (project_system_message data))
    (history (thread_id data)
       (addMessage (thread_id data) "user" (message data) now_user w))
    (message data).

(** The usage kept after the chunks [cs], starting from [u]: that of the last
    chunk that has one. *)
Definition latest_usage (u : option Usage) (cs : list Chunk) : option Usage :=
  foldl (fun u c => match chunk_usage c with Some u' => Some u' | None => u end) u cs.

(** The same request without its attachment. *)
Definition without_file (data : ChatMessage) : ChatMessage :=
  {| thread_id := thread_id data; message := message data; model := model data;
     system_message := system_message data;
     project_system_message := project_system_message data;
     variables := variables data; file_type := None; file_url := None |}.

(** The text streamed and returned for a generated image. *)
Definition imageResultText {rt : Runtime} (prompt : option JSON) (imageUrl : option string)
  : string :=
  nl +:+ nl +:+ "🎨 **Image Generated Successfully!**" +:+ nl +:+ nl
     +:+ "**Prompt:** " +:+ ToString prompt +:+ nl
     +:+ "**Image URL:** [orca.image.start]" +:+ show imageUrl
     +:+ "[orca.image.end] " +:+ nl +:+ nl +:+ "*Image created with DALL-E 3*".

(** The argument text a delta carries: its fragment when it is truthy. *)
Definition delta_fragment (toolCall : ToolCallDelta) : string :=
  match tc_function toolCall with
  | Some fn => if truthy (tcf_arguments fn) then show (tcf_arguments fn) else EmptyString
  | None => EmptyString
  end.

(** A message reduced to its role and content, as the completion API takes it. *)
Definition api_message (msg : Message) : OpenAIMessage :=
  {| msg_role := role msg; msg_content := Text (content msg) |}.

(** The call a chunk makes for its text: its fragment, when it is truthy. *)
Definition text_calls (c : Chunk) : list LexiaCall :=
  if truthy (delta_content c) then [StreamChunk (chunk_text c)] else [].

(** The loop over the tool-call deltas of a chunk, from the slots [fcs]. *)
Definition tool_loop {rt : Runtime} (c : Chunk) (fcs : list FunctionCall)
  : M (list FunctionCall) :=
  match delta_tool_calls c with
  | Some tool_calls => forEach tool_calls processToolCall fcs
  | None => ret fcs
  end.

(** [loop_calls cs fcs trace fcs']: [trace] is, chunk after chunk of [cs],
    the call for the text of the chunk followed by exactly the calls of the
    loop over its tool-call deltas, which takes the slots from [fcs] to
    [fcs'] in the end. *)
Inductive loop_calls {rt : Runtime}
  : list Chunk -> list FunctionCall -> list LexiaCall -> list FunctionCall -> Prop :=
| loop_calls_nil fcs : loop_calls [] fcs [] fcs
| loop_calls_cons c cs fcs tools fcs1 rest fcs2 :
    emits (tool_loop c fcs) tools (Normal fcs1) ->
    loop_calls cs fcs1 rest fcs2 ->
    loop_calls (c :: cs) fcs (text_calls c ++ tools ++ rest) fcs2.

(** A call made for a tool-call delta: the announcement of a call, or the
    progress notification for parsed arguments. *)
Definition is_tool_notification {rt : Runtime} (c : LexiaCall) : Prop :=
  (exists toolName, c = StreamChunk (announceMsg toolName)) \/
  (exists parsedArgs, c = StreamChunk (progressMsg parsedArgs)).

(** A message without its timestamp. *)
Definition unstamped (msg : Message) : string * string := (role msg, content msg).
(** ** Data of the examples *)

(** Five appends used in the examples. *)
Definition ex_appends : list Append :=
  [ mkAppend "user" "one" "t1"; mkAppend "assistant" "two" "t2";
    mkAppend "user" "three" "t3"; mkAppend "assistant" "four" "t4";
    mkAppend "user" "five" "t5" ].


(** The text [{"a":] and the text [1}] of the two argument fragments. *)
Definition frag1 : string := "{" +:+ dq +:+ "a" +:+ dq +:+ ":".
Definition frag2 : string := "1}".

(** The three deltas of tool call 0: identifying fields [c1] and [t], then
    the two argument fragments. *)
Definition ex_deltas : list Chunk :=
  [ ToolCallDeltaEvent 0 (Some "c1") (Some "t") None;
    ToolCallDeltaEvent 0 None None (Some frag1);
    ToolCallDeltaEvent 0 None None (Some frag2) ].

(** The slot of tool call 0 with the given argument text. *)
Definition ex_slot (args : string) : FunctionCall :=
  {| fc_id := Some "c1"; fc_type := "function";
     fc_function := {| name := Some "t"; arguments := args |} |}.

(** A state to run the examples in: the manager of [main.js], no call yet. *)
Definition ex_env : Env := {| world := new_manager [] 10; lexia := [] |}.

(** A request with a key, and one without. *)
Definition ex_data : ChatMessage :=
  {| thread_id := "th"; message := "draw a cat"; model := "gpt-4o";
     system_message := None; project_system_message := None;
     variables := Some [ {| var_name := "OPENAI_API_KEY"; var_value := "sk-test" |} ];
     file_type := None; file_url := None |}.
Definition ex_data_no_key : ChatMessage :=
  {| thread_id := "th"; message := "draw a cat"; model := "gpt-4o";
     system_message := None; project_system_message := None;
     variables := Some [ {| var_name := "OPENAI_API_KEY"; var_value := EmptyString |} ];
     file_type := None; file_url := None |}.

(** A stream whose only tool call, [generate_image], ends with the
    argument text [{"a":], which does not parse. *)
Definition ex_bad_stream : Stream :=
  {| chunks := [ ToolCallDeltaEvent 0 (Some "c1") (Some "generate_image") (Some frag1) ];
     failure := None |}.
Definition ex_bad_call : FunctionCall :=
  {| fc_id := Some "c1"; fc_type := "function";
     fc_function := {| name := Some "generate_image"; arguments := frag1 |} |}.
Definition ex_bad_locals : Locals :=
  {| fullResponse := EmptyString; usageInfo := None; functionCalls := [ex_bad_call] |}.

(** Services that answer the completion call with that stream. *)
Definition ex_services : Services :=
  reference_services (Normal ex_bad_stream) (Normal (Some "https://img.example/1.png"))
    (Normal "text of the pdf").

(** A call to a tool the handler does not know, then one with bad arguments. *)
Definition ex_calls : list FunctionCall :=
  [ {| fc_id := Some "c0"; fc_type := "function";
       fc_function := {| name := Some "get_weather"; arguments := "{}" |} |};
    ex_bad_call ].

(** A delta whose fragment is the whole text [{"a":1}] followed by a space. *)
Definition ex_padded_delta : ToolCallDelta :=
  {| tc_index := 0; tc_id := None;
     tc_function := Some {| tcf_name := None;
                            tcf_arguments := Some (frag1 +:+ frag2 +:+ " ") |} |}.

(** A manager holding one message of thread [th], and a message a caller
    pushes on an array it was handed. *)
Definition ex_world : World := addMessage "th" "user" "hi" "t0" (new_manager [] 10).
Definition ex_intruder : Message := mkMessage "system" "injected" "t9".

(** A manager of capacity 1 whose only array a caller made two messages
    longer. *)
Definition ex_overlong_world : World :=
  caller_mutates 0 (fun l => l ++ [ex_intruder; ex_intruder])
    (addMessage "th" "user" "hi" "t0" (new_manager [] 1)).

(** A call of [generate_image] with the argument text [{"prompt":"cat"}]. *)
Definition ex_good_call : FunctionCall :=
  {| fc_id := Some "c2"; fc_type := "function";
     fc_function :=
       {| name := Some "generate_image";
          arguments := "{" +:+ dq +:+ "prompt" +:+ dq +:+ ":" +:+ dq +:+ "cat" +:+ dq
                       +:+ "}" |} |}.

(** Services whose image request and PDF pipeline fail, and services whose
    completion call fails. *)
Definition ex_failing_services : Services :=
  reference_services (Normal ex_bad_stream) (Throw "quota exceeded")
    (Throw "unreadable file").
Definition ex_down_services : Services :=
  reference_services (Throw "503 Service Unavailable") (Throw "quota exceeded")
    (Throw "unreadable file").

(** A stream that yields one text chunk, and one that fails after it. *)
Definition ex_text_stream : Stream :=
  {| chunks := [TextDelta "Hello"]; failure := None |}.
Definition ex_broken_stream : Stream :=
  {| chunks := [TextDelta "Hello"]; failure := Some "connection reset" |}.
Definition ex_text_services : Services :=
  reference_services (Normal ex_text_stream) (Throw "quota exceeded")
    (Throw "unreadable file").
Definition ex_broken_services : Services :=
  reference_services (Normal ex_broken_stream) (Throw "quota exceeded")
    (Throw "unreadable file").

(** The request of the examples with a PDF attached. *)
Definition ex_pdf_data : ChatMessage :=
  {| thread_id := "th"; message := "draw a cat"; model := "gpt-4o";
     system_message := None; project_system_message := None;
     variables := Some [ {| var_name := "OPENAI_API_KEY"; var_value := "sk-test" |} ];
     file_type := Some "pdf"; file_url := Some "https://files.example/a.pdf" |}.

(** A delta of tool call 2 with an argument fragment. *)
Definition ex_gap_delta : ToolCallDelta :=
  {| tc_index := 2; tc_id := Some "c9";
     tc_function := Some {| tcf_name := Some "t"; tcf_arguments := Some frag1 |} |}.

(** The two argument fragments as deltas of tool call 0 that carry an id and
    a name of their own. *)
Definition ex_fragment_deltas : list ToolCallDelta :=
  [ {| tc_index := 0; tc_id := Some "other";
       tc_function := Some {| tcf_name := Some "u"; tcf_arguments := Some frag1 |} |};
    {| tc_index := 0; tc_id := None;
       tc_function := Some {| tcf_name := None; tcf_arguments := Some frag2 |} |} ].

(** * Properties *)

(** ** Arrays in the heap *)

Lemma array_read_alter_eq f a (h : Heap) :
  (a < length h)%nat -> array_read a (alter f a h) = f (array_read a h).
Proof.
  intros Ha. unfold array_read. rewrite list_lookup_alter_eq.
  destruct (lookup_lt_is_Some_2 h a Ha) as [l Hl]. by rewrite Hl.
Qed.

Lemma array_read_alter_ne f a b (h : Heap) :
  a <> b -> array_read b (alter f a h) = array_read b h.
Proof. intros Hab. unfold array_read. by rewrite list_lookup_alter_ne. Qed.

Lemma array_read_new (h : Heap) : array_read (length h) (h ++ [[]]) = [].
Proof. unfold array_read. by rewrite list_lookup_middle. Qed.

Lemma array_read_old a (h : Heap) l :
  (a < length h)%nat -> array_read a (h ++ l) = array_read a h.
Proof. intros Ha. unfold array_read. by rewrite lookup_app_l. Qed.

(** ** The conversation store *)

Lemma history_known t a w :
  conversations w !! t = Some a -> history t w = array_read a (heap w).
Proof. intros H. unfold history, getHistory. by rewrite H. Qed.

Lemma history_unknown t w : conversations w !! t = None -> history t w = [].
Proof.
  intros H. unfold history, getHistory. rewrite H. simpl. apply array_read_new.
Qed.

Lemma maxHistory_addMessage t r c now w :
  maxHistory (addMessage t r c now w) = maxHistory w.
Proof.
  unfold addMessage. case_bool_decide as Hk; simpl.
  - destruct Hk as [a Ha]. by rewrite Ha.
  - by rewrite lookup_insert_eq.
Qed.

Lemma maxHistory_appends t rs w : maxHistory (appends t rs w) = maxHistory w.
Proof.
  revert w. induction rs as [|r rs IH]; intros w; [done|].
  cbn. unfold appends in IH. by rewrite IH, maxHistory_addMessage.
Qed.

(** [addMessage] on a known thread works in place on the stored array. *)
Lemma addMessage_known t r c now a w :
  conversations w !! t = Some a ->
  addMessage t r c now w =
  {| heap := (if (Z.of_nat (array_length a (array_push a (mkMessage r c now) (heap w)))
                  >? maxHistory w)%Z
              then array_shift a (array_push a (mkMessage r c now) (heap w))
              else array_push a (mkMessage r c now) (heap w));
     maxHistory := maxHistory w; conversations := conversations w |}.
Proof.
  intros Ha. unfold addMessage.
  rewrite bool_decide_true by (by exists a). by rewrite Ha.
Qed.

(** [addMessage] on an unknown thread stores a new array first. *)
Lemma addMessage_unknown t r c now w :
  conversations w !! t = None ->
  addMessage t r c now w =
  addMessage t r c now
    {| heap := heap w ++ [[]]; maxHistory := maxHistory w;
       conversations := <[t := length (heap w)]> (conversations w) |}.
Proof.
  intros Hn. unfold addMessage at 1.
  rewrite bool_decide_false by (rewrite Hn; by intros [? ?]).
  cbn -[addMessage]. rewrite lookup_insert_eq.
  symmetry. erewrite addMessage_known by apply lookup_insert_eq. done.
Qed.

Lemma history_addMessage_known t r c now a w :
  conversations w !! t = Some a -> (a < length (heap w))%nat ->
  history t (addMessage t r c now w) =
  evict (maxHistory w) (history t w ++ [mkMessage r c now]).
Proof.
  intros Ha Hlt. rewrite (history_known t a w Ha).
  rewrite (addMessage_known _ _ _ _ _ _ Ha).
  erewrite history_known by exact Ha. cbn.
  unfold array_length, array_push, array_shift, evict.
  rewrite array_read_alter_eq by done.
  destruct (_ >? _)%Z; [|by rewrite array_read_alter_eq].
  rewrite array_read_alter_eq by (by rewrite length_alter).
  by rewrite array_read_alter_eq.
Qed.

Lemma history_addMessage_eq t r c now w :
  wf w ->
  history t (addMessage t r c now w) =
  evict (maxHistory w) (history t w ++ [mkMessage r c now]).
Proof.
  intros [Hal _]. destruct (conversations w !! t) as [a|] eqn:Ha.
  - apply (history_addMessage_known _ _ _ _ a); eauto.
  - rewrite addMessage_unknown by done.
    rewrite (history_addMessage_known _ _ _ _ (length (heap w))); cbn.
    + rewrite (history_unknown t w Ha).
      erewrite history_known by apply lookup_insert_eq. cbn.
      by rewrite array_read_new.
    + apply lookup_insert_eq.
    + rewrite length_app. cbn. lia.
Qed.

Lemma history_addMessage_ne t t' r c now w :
  wf w -> t <> t' ->
  history t' (addMessage t r c now w) = history t' w.
Proof.
  intros [Hal Hinj] Hne. destruct (conversations w !! t) as [a|] eqn:Ha.
  - rewrite (addMessage_known _ _ _ _ _ _ Ha).
    destruct (conversations w !! t') as [b|] eqn:Hb.
    + rewrite (history_known t' b w Hb).
      erewrite history_known by exact Hb. cbn.
      assert (a <> b) by (intros ->; eauto).
      unfold array_push, array_shift.
      destruct (_ >? _)%Z; by rewrite !array_read_alter_ne.
    + rewrite (history_unknown t' w Hb). by apply history_unknown.
  - rewrite addMessage_unknown by done.
    erewrite addMessage_known by apply lookup_insert_eq. cbn.
    destruct (conversations w !! t') as [b|] eqn:Hb.
    + rewrite (history_known t' b w Hb).
      erewrite history_known by (cbn; rewrite lookup_insert_ne; eauto). cbn.
      pose proof (Hal _ _ Hb).
      unfold array_push, array_shift.
      destruct (_ >? _)%Z; rewrite !array_read_alter_ne by lia;
        by apply array_read_old.
    + rewrite (history_unknown t' w Hb). apply history_unknown.
      cbn. by rewrite lookup_insert_ne.
Qed.

Lemma history_clearHistory_eq t w : history t (clearHistory t w) = [].
Proof. apply history_unknown. cbn. apply lookup_delete_eq. Qed.

Lemma history_clearHistory_ne t t' w :
  t <> t' -> history t' (clearHistory t w) = history t' w.
Proof.
  intros Hne. unfold history, getHistory, clearHistory. cbn.
  rewrite lookup_delete_ne by done. by destruct (conversations w !! t').
Qed.

(** ** The invariant of reachable states *)

Lemma wf_new h mh : wf (new_manager h mh).
Proof. split; cbn; intros *; by rewrite lookup_empty. Qed.

Lemma wf_caller_mutates a f w : wf w -> wf (caller_mutates a f w).
Proof. intros [Hal Hinj]. split; cbn; [|done]. intros. rewrite length_alter. eauto. Qed.

Lemma wf_clearHistory t w : wf w -> wf (clearHistory t w).
Proof.
  intros [Hal Hinj]. split; cbn.
  - intros t' a [_ H]%lookup_delete_Some. eauto.
  - intros t1 t2 a [_ H1]%lookup_delete_Some [_ H2]%lookup_delete_Some. eauto.
Qed.

Lemma wf_alloc t w :
  wf w -> conversations w !! t = None ->
  wf {| heap := heap w ++ [[]]; maxHistory := maxHistory w;
        conversations := <[t := length (heap w)]> (conversations w) |}.
Proof.
  intros [Hal Hinj] Hn. split; cbn.
  - intros t' a [[_ <-]|[_ H]]%lookup_insert_Some; rewrite length_app; cbn.
    + lia.
    + apply Hal in H. lia.
  - intros t1 t2 a [[<- <-]|[? H1]]%lookup_insert_Some
      [[<- E]|[? H2]]%lookup_insert_Some; try done.
    + apply Hal in H2. lia.
    + subst a. apply Hal in H1. lia.
    + eauto.
Qed.

Lemma wf_getHistory t w : wf w -> wf (getHistory t w).2.
Proof.
  intros Hw. unfold getHistory. destruct (conversations w !! t); [done|]. cbn.
  destruct Hw as [Hal Hinj]. split; cbn; [|done].
  intros t' a H. apply Hal in H. rewrite length_app. cbn. lia.
Qed.

Lemma wf_addMessage t r c now w : wf w -> wf (addMessage t r c now w).
Proof.
  intros Hw. destruct (conversations w !! t) as [a|] eqn:Ha.
  - rewrite (addMessage_known _ _ _ _ _ _ Ha). destruct Hw as [Hal Hinj].
    split; cbn; [|done]. intros t' b Hb. apply Hal in Hb.
    unfold array_shift, array_push. destruct (_ >? _)%Z; by rewrite !length_alter.
  - rewrite addMessage_unknown by done.
    erewrite addMessage_known by apply lookup_insert_eq.
    destruct (wf_alloc t w Hw Ha) as [Hal Hinj]. cbn in *.
    split; cbn; [|done]. intros t' b Hb. apply Hal in Hb.
    unfold array_shift, array_push. destruct (_ >? _)%Z; by rewrite !length_alter.
Qed.

Lemma wf_mutate w m : wf w -> wf (mutate w m).
Proof. destruct m; cbn; auto using wf_addMessage, wf_clearHistory. Qed.

Lemma wf_appends t rs w : wf w -> wf (appends t rs w).
Proof.
  revert w. induction rs as [|r rs IH]; intros w Hw; [done|].
  cbn. apply IH. by apply wf_addMessage.
Qed.

(** Every state the program reaches satisfies the invariant. *)
Lemma reachable_wf w : reachable w -> wf w.
Proof.
  induction 1; auto using wf_new, wf_addMessage, wf_clearHistory,
    wf_getHistory, wf_caller_mutates.
Qed.

(** ** Eviction keeps the most recent messages *)

Lemma evict_lastn (n : nat) (l : list Message) m :
  evict (Z.of_nat n) (lastn n l ++ [m]) = lastn n (l ++ [m]).
Proof.
  unfold evict, lastn. rewrite !length_app, length_drop. cbn.
  destruct (Z.gtb_spec (Z.of_nat (length l - (length l - n) + 1)) (Z.of_nat n)).
  - change (tail ?x) with (drop 1 x).
    rewrite <- drop_app_le by lia. rewrite drop_drop. f_equal. lia.
  - replace (length l - n)%nat with 0%nat by lia.
    replace (length l + 1 - n)%nat with 0%nat by lia. done.
Qed.

Lemma length_evict (mh : Z) (l : list Message) m :
  (0 <= mh)%Z -> (Z.of_nat (length l) <= mh)%Z ->
  (Z.of_nat (length (evict mh (l ++ [m]))) <= mh)%Z.
Proof.
  intros H0 Hl. unfold evict. rewrite length_app. cbn [length].
  destruct (Z.gtb_spec (Z.of_nat (length l + 1)) mh); [|rewrite length_app; cbn [length]; lia].
  destruct l as [|x l]; [cbn; lia|].
  change (tail ((x :: l) ++ [m])) with (l ++ [m]).
  rewrite length_app. cbn [length] in *. lia.
Qed.

Lemma history_appends t rs : forall w (l0 : list Message),
  wf w -> (0 <= maxHistory w)%Z ->
  history t w = lastn (Z.to_nat (maxHistory w)) l0 ->
  history t (appends t rs w) =
  lastn (Z.to_nat (maxHistory w)) (l0 ++ map message_of rs).
Proof.
  induction rs as [|r rs IH]; intros w l0 Hw H0 Hh.
  - cbn. by rewrite app_nil_r.
  - cbn. unfold appends in IH.
    rewrite (IH _ (l0 ++ [message_of r])).
    + rewrite maxHistory_addMessage. by rewrite <- app_assoc.
    + by apply wf_addMessage.
    + by rewrite maxHistory_addMessage.
    + rewrite maxHistory_addMessage, history_addMessage_eq by done.
      rewrite Hh. rewrite <- (Z2Nat.id (maxHistory w)) at 1 by done.
      apply evict_lastn.
Qed.

Lemma history_bounded_mutate w m :
  wf w -> (0 <= maxHistory w)%Z ->
  (forall t, (Z.of_nat (length (history t w)) <= maxHistory w)%Z) ->
  forall t, (Z.of_nat (length (history t (mutate w m))) <= maxHistory w)%Z.
Proof.
  intros Hw H0 Hb t. destruct m as [t' r|t']; cbn.
  - destruct (decide (t' = t)) as [->|Hne].
    + rewrite history_addMessage_eq by done. by apply length_evict.
    + by rewrite history_addMessage_ne.
  - destruct (decide (t' = t)) as [->|Hne].
    + by rewrite history_clearHistory_eq.
    + by rewrite history_clearHistory_ne.
Qed.

Lemma maxHistory_mutate w m : maxHistory (mutate w m) = maxHistory w.
Proof. destruct m; cbn; [apply maxHistory_addMessage | done]. Qed.

Lemma history_bounded_run ms : forall w,
  wf w -> (0 <= maxHistory w)%Z ->
  (forall t, (Z.of_nat (length (history t w)) <= maxHistory w)%Z) ->
  forall t, (Z.of_nat (length (history t (foldl mutate w ms))) <= maxHistory w)%Z.
Proof.
  induction ms as [|m ms IH]; intros w Hw H0 Hb t; [apply Hb|].
  cbn. rewrite <- (maxHistory_mutate w m). apply IH.
  - by apply wf_mutate.
  - by rewrite maxHistory_mutate.
  - rewrite maxHistory_mutate. by apply history_bounded_mutate.
Qed.


(** ** Computations and their calls to the platform *)

Lemma push_calls_nil e : push_calls [] e = e.
Proof. destruct e. unfold push_calls. cbn. by rewrite app_nil_r. Qed.

Lemma push_calls_app cs cs' e :
  push_calls cs' (push_calls cs e) = push_calls (cs ++ cs') e.
Proof. unfold push_calls. cbn. by rewrite app_assoc. Qed.

Lemma emits_ret {A} (a : A) : emits (ret a) [] (Normal a).
Proof. intros e. unfold ret. by rewrite push_calls_nil. Qed.

Lemma emits_throw {A} msg : emits (@throw A msg) [] (Throw msg).
Proof. intros e. unfold throw. by rewrite push_calls_nil. Qed.

Lemma emits_lift {A} (c : Completion A) : emits (lift c) [] c.
Proof. intros e. unfold lift. by rewrite push_calls_nil. Qed.

Lemma emits_send c : emits (send c) [c] (Normal tt).
Proof. by intros e. Qed.

Lemma emits_streamChunk s : emits (streamChunk s) [StreamChunk s] (Normal tt).
Proof. apply emits_send. Qed.

Lemma emits_bind {A B} (m : M A) (k : A -> M B) cs a cs' c :
  emits m cs (Normal a) -> emits (k a) cs' c -> emits (bind m k) (cs ++ cs') c.
Proof.
  intros Hm Hk e. unfold bind. rewrite Hm, Hk. by rewrite push_calls_app.
Qed.

Lemma emits_bind_throw {A B} (m : M A) (k : A -> M B) cs msg :
  emits m cs (Throw msg) -> emits (bind m k) cs (Throw msg).
Proof. intros Hm e. unfold bind. by rewrite Hm. Qed.

Lemma emits_try {A} (m : M A) h cs a :
  emits m cs (Normal a) -> emits (try_catch m h) cs (Normal a).
Proof. intros Hm e. unfold try_catch. by rewrite Hm. Qed.

Lemma emits_try_throw {A} (m : M A) h cs msg cs' c :
  emits m cs (Throw msg) -> emits (h msg) cs' c ->
  emits (try_catch m h) (cs ++ cs') c.
Proof.
  intros Hm Hh e. unfold try_catch. rewrite Hm, Hh. by rewrite push_calls_app.
Qed.

(** A computation makes one sequence of calls and has one completion. *)
Lemma emits_det {A} (m : M A) cs c cs' c' :
  emits m cs c -> emits m cs' c' -> cs = cs' /\ c = c'.
Proof.
  intros H1 H2.
  pose proof (H1 {| world := new_manager [] 0; lexia := [] |}) as E1.
  rewrite H2 in E1. unfold push_calls in E1. cbn in E1.
  by inversion E1.
Qed.

Lemma returns_traced {A} (m : M A) : returns m -> traced m.
Proof. intros (ss & a & H). by exists ss, (Normal a). Qed.

Lemma traced_ret {A} (a : A) : traced (ret a).
Proof. exists [], (Normal a). apply emits_ret. Qed.

Lemma returns_ret {A} (a : A) : returns (ret a).
Proof. exists [], a. apply emits_ret. Qed.

Lemma traced_throw {A} msg : traced (@throw A msg).
Proof. exists [], (Throw msg). apply emits_throw. Qed.

Lemma traced_lift {A} (c : Completion A) : traced (lift c).
Proof. exists [], c. apply emits_lift. Qed.

Lemma returns_streamChunk s : returns (streamChunk s).
Proof. exists [s], tt. apply emits_streamChunk. Qed.

Lemma traced_bind {A B} (m : M A) (k : A -> M B) :
  traced m -> (forall a, traced (k a)) -> traced (bind m k).
Proof.
  intros (ss & [a|msg] & Hm) Hk.
  - destruct (Hk a) as (ss' & c & Hka). exists (ss ++ ss'), c.
    rewrite map_app. by eapply emits_bind.
  - exists ss, (Throw msg). by eapply emits_bind_throw.
Qed.

Lemma returns_bind {A B} (m : M A) (k : A -> M B) :
  returns m -> (forall a, returns (k a)) -> returns (bind m k).
Proof.
  intros (ss & a & Hm) Hk. destruct (Hk a) as (ss' & b & Hka).
  exists (ss ++ ss'), b. rewrite map_app. by eapply emits_bind.
Qed.

Lemma traced_try {A} (m : M A) h :
  traced m -> (forall msg, traced (h msg)) -> traced (try_catch m h).
Proof.
  intros (ss & [a|msg] & Hm) Hh.
  - exists ss, (Normal a). by eapply emits_try.
  - destruct (Hh msg) as (ss' & c & Hc). exists (ss ++ ss'), c.
    rewrite map_app. by eapply emits_try_throw.
Qed.

(** A [try] whose handler returns never throws. *)
Lemma returns_try {A} (m : M A) h :
  traced m -> (forall msg, returns (h msg)) -> returns (try_catch m h).
Proof.
  intros (ss & [a|msg] & Hm) Hh.
  - exists ss, a. by eapply emits_try.
  - destruct (Hh msg) as (ss' & c & Hc). exists (ss ++ ss'), c.
    rewrite map_app. by eapply emits_try_throw.
Qed.

Lemma traced_forEach {A S} (body : A -> S -> M S) (l : list A) :
  (forall x s, traced (body x s)) -> forall s, traced (forEach l body s).
Proof.
  intros Hb. induction l as [|x l IH]; intros s; cbn.
  - apply traced_ret.
  - apply traced_bind; auto.
Qed.

Lemma returns_forEach {A S} (body : A -> S -> M S) (l : list A) :
  (forall x s, returns (body x s)) -> forall s, returns (forEach l body s).
Proof.
  intros Hb. induction l as [|x l IH]; intros s; cbn.
  - apply returns_ret.
  - apply returns_bind; auto.
Qed.

Lemma forEach_app {A S} (body : A -> S -> M S) l1 l2 : forall s e,
  forEach (l1 ++ l2) body s e =
  match forEach l1 body s e with
  | (e', Normal s1) => forEach l2 body s1 e'
  | (e', Throw msg) => (e', Throw msg)
  end.
Proof.
  induction l1 as [|x l1 IH]; intros s e; [done|].
  cbn [app forEach]. unfold bind.
  destruct (body x s e) as [e' [s'|msg]]; [apply IH | done].
Qed.

Lemma emits_forEach_app {A S} (body : A -> S -> M S) l1 l2 s cs1 s1 cs2 r :
  emits (forEach l1 body s) cs1 (Normal s1) ->
  emits (forEach l2 body s1) cs2 r ->
  emits (forEach (l1 ++ l2) body s) (cs1 ++ cs2) r.
Proof.
  intros H1 H2 e. rewrite forEach_app, H1, H2. by rewrite push_calls_app.
Qed.

(** ** Strings *)

Lemma append_cons a (s1 s2 : string) : String a s1 +:+ s2 = String a (s1 +:+ s2).
Proof. reflexivity. Qed.

Lemma append_nil_l (s : string) : EmptyString +:+ s = s.
Proof. reflexivity. Qed.

Lemma append_nil_r (s : string) : s +:+ EmptyString = s.
Proof. induction s as [|a s IH]; [done|]. by rewrite append_cons, IH. Qed.

Lemma append_assoc (s1 s2 s3 : string) : (s1 +:+ s2) +:+ s3 = s1 +:+ (s2 +:+ s3).
Proof. induction s1 as [|a s1 IH]; [done|]. by rewrite !append_cons, IH. Qed.

Lemma substring_refl s : substring s s.
Proof. exists EmptyString, EmptyString. by rewrite append_nil_l, append_nil_r. Qed.

Lemma substring_app_l t s p : substring t s -> substring t (p +:+ s).
Proof.
  intros (pre & post & ->). exists (p +:+ pre), post. by rewrite append_assoc.
Qed.

Lemma substring_app_r t s p : substring t s -> substring t (s +:+ p).
Proof.
  intros (pre & post & ->). exists pre, (post +:+ p). by rewrite !append_assoc.
Qed.

Lemma substring_concat t (l : list string) :
  t ∈ l -> substring t (concat_strings l).
Proof.
  induction 1 as [t l|t x l _ IH]; cbn.
  - apply substring_app_r, substring_refl.
  - by apply substring_app_l.
Qed.

Lemma concat_strings_app (l1 l2 : list string) :
  concat_strings (l1 ++ l2) = concat_strings l1 +:+ concat_strings l2.
Proof.
  induction l1 as [|x l1 IH]; [done|].
  change (concat_strings ((x :: l1) ++ l2)) with (x +:+ concat_strings (l1 ++ l2)).
  change (concat_strings (x :: l1)) with (x +:+ concat_strings l1).
  by rewrite IH, append_assoc.
Qed.

Lemma truthy_Some_false s : truthy (Some s) = false -> s = EmptyString.
Proof. cbn. by destruct (String.eqb_spec s EmptyString). Qed.

(** ** function_handler.js *)

Ltac traced_tac :=
  repeat first
    [ apply traced_ret | apply traced_throw | apply traced_lift
    | apply returns_traced, returns_streamChunk
    | lazymatch goal with
      | |- traced (bind _ _) => apply traced_bind; [|intros]
      | |- traced (try_catch _ _) => apply traced_try; [|intros]
      | |- traced (if ?b then _ else _) => destruct b
      | |- traced (match ?x with _ => _ end) => destruct x
      | |- traced (let _ := _ in _) => cbv zeta
      end ].

Section HandlerProperties.
Context {rt : Runtime} {sv : Services}.

Lemma traced_generateImageWithDALLE prompt vars size quality style :
  traced (generateImageWithDALLE prompt vars size quality style).
Proof. unfold generateImageWithDALLE. traced_tac. Qed.

(** [executeGenerateImage] catches whatever is thrown in it. *)
Lemma returns_executeGenerateImage fc data : returns (executeGenerateImage fc data).
Proof.
  unfold executeGenerateImage. apply returns_try; [|intros; apply returns_ret].
  traced_tac. apply traced_generateImageWithDALLE.
Qed.

(** [executeFunctionCall] never throws. *)
Lemma returns_executeFunctionCall fc data : returns (executeFunctionCall fc data).
Proof.
  unfold executeFunctionCall. apply returns_try; [|intros; apply returns_ret].
  apply traced_bind; [apply returns_traced, returns_streamChunk|intros _].
  destruct (bool_decide _); [|apply traced_ret].
  apply returns_traced, returns_executeGenerateImage.
Qed.

(** A failed invocation returns its failure text and no file. *)
Lemma executeFunctionCall_failure fc data txt :
  invocation_fails data fc txt ->
  exists cs, emits (executeFunctionCall fc data) cs
               (Normal {| result := txt; fileUrl := None |}).
Proof.
  intros Hf.
  destruct Hf as [Hname|msg Hname Hp|Hname Hp
                 |args prompt size quality style msg Hname Hp Hpr Hsz Hq Hst Hgen];
    eexists; unfold executeFunctionCall;
    (eapply emits_try; eapply emits_bind; [apply emits_streamChunk|]).
  - rewrite bool_decide_false by done. apply emits_ret.
  - rewrite bool_decide_true by done. unfold executeGenerateImage.
    eapply emits_try_throw; [|apply emits_ret].
    eapply emits_bind_throw. rewrite Hp. apply emits_lift.
  - rewrite bool_decide_true by done. unfold executeGenerateImage.
    eapply emits_try_throw; [|apply emits_ret].
    eapply emits_bind; [rewrite Hp; apply emits_lift|].
    eapply emits_bind; [apply emits_streamChunk|].
    eapply emits_bind; [apply emits_streamChunk|].
    eapply emits_bind_throw. cbn. apply emits_lift.
  - rewrite bool_decide_true by done. unfold executeGenerateImage.
    eapply emits_try_throw; [|apply emits_ret].
    eapply emits_bind; [rewrite Hp; apply emits_lift|].
    eapply emits_bind; [apply emits_streamChunk|].
    eapply emits_bind; [apply emits_streamChunk|].
    eapply emits_bind; [rewrite Hpr; apply emits_lift|].
    eapply emits_bind; [rewrite Hsz; apply emits_lift|].
    eapply emits_bind; [rewrite Hq; apply emits_lift|].
    eapply emits_bind; [rewrite Hst; apply emits_lift|].
    eapply emits_bind_throw. exact Hgen.
Qed.

Lemma pick_fileUrl_stable g rs : truthy g = true -> foldl pick_fileUrl g rs = g.
Proof.
  intros Hg. induction rs as [|r rs IH]; [done|]. cbn.
  unfold pick_fileUrl at 2. rewrite Hg, andb_false_r. exact IH.
Qed.

Lemma pick_fileUrl_first rs : foldl pick_fileUrl None rs = first_fileUrl rs.
Proof.
  induction rs as [|r rs IH]; [done|]. cbn. unfold pick_fileUrl at 2. cbn.
  rewrite andb_true_r. destruct (truthy (fileUrl r)) eqn:Hr; [|exact IH].
  by apply pick_fileUrl_stable.
Qed.

(** One turn of the loop: the invocation returns, its text is appended. *)
Lemma processFunctionCalls_step_emits data fc combined generated :
  exists ss r,
    emits (executeFunctionCall fc data) (map StreamChunk ss) (Normal r) /\
    emits (processFunctionCalls_step data fc (combined, generated)) (map StreamChunk ss)
      (Normal (combined +:+ result r, pick_fileUrl generated r)).
Proof.
  destruct (returns_executeFunctionCall fc data) as (ss & r & Hr).
  exists ss, r. split; [done|]. unfold processFunctionCalls_step.
  apply emits_try. rewrite <- (app_nil_r (map StreamChunk ss)).
  eapply emits_bind; [exact Hr|]. apply emits_ret.
Qed.

Lemma processFunctionCalls_loop data fcs : forall combined generated,
  exists ss rs,
    Forall2 (fun fc r => exists cs, emits (executeFunctionCall fc data) cs (Normal r))
            fcs rs /\
    emits (forEach fcs (processFunctionCalls_step data) (combined, generated))
      (map StreamChunk ss)
      (Normal (combined +:+ concat_strings (map result rs),
               foldl pick_fileUrl generated rs)).
Proof.
  induction fcs as [|fc fcs IH]; intros combined generated.
  - exists [], []. split; [constructor|]. cbn. rewrite append_nil_r. apply emits_ret.
  - destruct (processFunctionCalls_step_emits data fc combined generated)
      as (ss1 & r & Hr & Hstep).
    destruct (IH (combined +:+ result r) (pick_fileUrl generated r))
      as (ss2 & rs & Hrs & Hloop).
    exists (ss1 ++ ss2), (r :: rs). split; [constructor; eauto|].
    cbn [forEach]. rewrite map_app. eapply emits_bind; [exact Hstep|].
    change (concat_strings (map result (r :: rs)))
      with (result r +:+ concat_strings (map result rs)).
    rewrite <- append_assoc. exact Hloop.
Qed.

(** [processFunctionCalls] never throws; its text is the texts of the
    invocations, one after the other. *)
Lemma processFunctionCalls_emits data fcs :
  exists ss rs,
    Forall2 (fun fc r => exists cs, emits (executeFunctionCall fc data) cs (Normal r))
            fcs rs /\
    emits (processFunctionCalls fcs data) (map StreamChunk ss)
      (Normal {| result := concat_strings (map result rs);
                 fileUrl := first_fileUrl rs |}).
Proof.
  unfold processFunctionCalls. destruct fcs as [|fc fcs].
  - exists [], []. split; [constructor|]. apply emits_ret.
  - destruct (processFunctionCalls_loop data (fc :: fcs) EmptyString None)
      as (ss & rs & Hrs & Hloop).
    exists ss, rs. split; [done|]. cbn [length Nat.eqb].
    rewrite <- (app_nil_r (map StreamChunk ss)). eapply emits_bind; [exact Hloop|].
    cbn [fst snd]. rewrite append_nil_l, pick_fileUrl_first. apply emits_ret.
Qed.

End HandlerProperties.

(** ** main.js: the streaming loop *)

Section LoopProperties.
Context {rt : Runtime} {sv : Services}.

Lemma traced_processToolCall toolCall fcs : traced (processToolCall toolCall fcs).
Proof. unfold processToolCall. traced_tac. Qed.

(** The progress step never throws: a failed parse is swallowed. *)
Lemma progress_emits currentArgs :
  emits (try_catch
           (if looks_complete currentArgs
            then parsedArgs <- lift (JSON_parse currentArgs) ;;
                 streamChunk (progressMsg parsedArgs)
            else ret tt)
           (fun _ => ret tt))
        (progress_calls currentArgs) (Normal tt).
Proof.
  unfold progress_calls. destruct (looks_complete currentArgs).
  - destruct (JSON_parse currentArgs) as [v|msg] eqn:Hp.
    + apply emits_try. change [StreamChunk (progressMsg v)]
        with ([] ++ [StreamChunk (progressMsg v)]).
      eapply emits_bind; [apply emits_lift|]. apply emits_streamChunk.
    + change (@nil LexiaCall) with (@nil LexiaCall ++ []).
      eapply emits_try_throw; [|apply emits_ret].
      eapply emits_bind_throw. apply emits_lift.
  - apply emits_try, emits_ret.
Qed.

(** A delta with a non-empty argument fragment, for a slot that exists or
    that this delta creates: the fragment is appended to the slot, and the
    calls to the platform are the announcement (for a new slot) followed by
    the progress notification of the accumulated text. *)
Lemma processToolCall_fragment toolCall fn frag fcs :
  tc_function toolCall = Some fn ->
  tcf_arguments fn = Some frag -> frag <> EmptyString ->
  (tc_index toolCall <= length fcs)%nat ->
  let created := (length fcs <=? tc_index toolCall)%nat in
  let fcs1 := if created then fcs ++ [new_slot toolCall fn] else fcs in
  exists slot,
    fcs1 !! tc_index toolCall = Some slot /\
    let currentArgs := arguments (fc_function slot) +:+ frag in
    emits (processToolCall toolCall fcs)
      ((if created then [StreamChunk (announceMsg (tcf_name fn))] else [])
         ++ progress_calls currentArgs)
      (Normal (<[tc_index toolCall := with_arguments slot currentArgs]> fcs1)).
Proof.
  intros Hfn Hargs Hne Hidx created fcs1.
  assert (Hlt : (tc_index toolCall < length fcs1)%nat).
  { subst fcs1 created. destruct (Nat.leb_spec (length fcs) (tc_index toolCall));
      [rewrite length_app; cbn; lia | lia]. }
  destruct (lookup_lt_is_Some_2 _ _ Hlt) as [slot Hslot].
  exists slot. split; [done|]. intros currentArgs.
  unfold processToolCall. rewrite Hfn.
  assert (Ht : truthy (tcf_arguments fn) = true).
  { rewrite Hargs. cbn. by destruct (String.eqb_spec frag EmptyString). }
  eapply emits_bind with (a := fcs1).
  - subst fcs1 created. destruct (_ <=? _)%nat.
    + change [StreamChunk (announceMsg (tcf_name fn))]
        with ([StreamChunk (announceMsg (tcf_name fn))] ++ []).
      eapply emits_bind; [apply emits_streamChunk|apply emits_ret].
    + apply emits_ret.
  - rewrite Ht, Hslot. rewrite Hargs. cbn [show].
    rewrite <- (app_nil_r (progress_calls _)).
    eapply emits_bind; [apply progress_emits|]. apply emits_ret.
Qed.

(** The notification is sent exactly when the accumulated text ends with a
    double quote, a closing brace or a closing bracket and parses. *)
Lemma progress_calls_iff currentArgs v :
  progress_calls currentArgs = [StreamChunk (progressMsg v)] <->
  looks_complete currentArgs = true /\
  exists v', JSON_parse currentArgs = Normal v' /\ progressMsg v' = progressMsg v.
Proof.
  unfold progress_calls. destruct (looks_complete currentArgs).
  - destruct (JSON_parse currentArgs) as [v'|msg]; split.
    + intros E. split; [done|]. exists v'. split; congruence.
    + intros (_ & v'' & [= <-] & ->). done.
    + done.
    + intros (_ & v'' & [=] & _).
  - split; [done|]. by intros [[=] _].
Qed.

Lemma progress_calls_nil currentArgs :
  progress_calls currentArgs = [] <->
  looks_complete currentArgs = false \/ exists msg, JSON_parse currentArgs = Throw msg.
Proof.
  unfold progress_calls. destruct (looks_complete currentArgs).
  - destruct (JSON_parse currentArgs) as [v'|msg]; split.
    + done.
    + intros [[=]|(msg & [=])].
    + intros _. right. by exists msg.
    + done.
  - split; [by left|done].
Qed.

(** A chunk that carries text only: the text is appended to the response and,
    unless it is empty, streamed; nothing else happens. *)
Lemma processChunk_text f s :
  emits (processChunk (TextDelta f) s)
    (if truthy (Some f) then [StreamChunk f] else [])
    (Normal {| fullResponse := fullResponse s +:+ f; usageInfo := usageInfo s;
               functionCalls := functionCalls s |}).
Proof.
  unfold processChunk, TextDelta. cbn [delta_content delta_tool_calls chunk_usage show].
  destruct (truthy (Some f)) eqn:Hf.
  - rewrite <- (app_nil_r [StreamChunk f]).
    eapply emits_bind; [|rewrite <- (app_nil_r []); eapply emits_bind; apply emits_ret].
    rewrite <- (app_nil_r [StreamChunk f]).
    eapply emits_bind; [apply emits_streamChunk | apply emits_ret].
  - apply truthy_Some_false in Hf. subst f. rewrite append_nil_r. destruct s.
    rewrite <- (app_nil_r []). eapply emits_bind; [apply emits_ret|].
    rewrite <- (app_nil_r []). eapply emits_bind; apply emits_ret.
Qed.

(** The chunks streamed for the text of a chunk. *)
Lemma text_fragments_cons c cs :
  text_fragments (c :: cs) =
  (if truthy (delta_content c) then [chunk_text c] else []) ++ text_fragments cs.
Proof.
  unfold text_fragments, chunk_text. cbn.
  destruct (delta_content c) as [f|]; [|done]. by destruct (truthy (Some f)).
Qed.

(** Any chunk: its text, if truthy, is streamed before anything else the
    chunk causes, and is what the chunk adds to the response. *)
Lemma processChunk_emits c s :
  exists ss r,
    emits (processChunk c s)
      (map StreamChunk ((if truthy (delta_content c) then [chunk_text c] else []) ++ ss)) r /\
    forall s', r = Normal s' -> fullResponse s' = fullResponse s +:+ chunk_text c.
Proof.
  unfold processChunk.
  set (s1 := {| fullResponse := fullResponse s +:+ chunk_text c;
                usageInfo := usageInfo s; functionCalls := functionCalls s |}).
  assert (H1 : emits
    (if truthy (delta_content c)
     then let content := show (delta_content c) in
          let s0 := {| fullResponse := fullResponse s +:+ content;
                       usageInfo := usageInfo s; functionCalls := functionCalls s |} in
          streamChunk content ;; ret s0
     else ret s)
    (map StreamChunk (if truthy (delta_content c) then [chunk_text c] else []))
    (Normal s1)).
  { subst s1. unfold chunk_text. destruct (delta_content c) as [f|]; cbn [truthy].
    - change (default EmptyString (Some f)) with f. cbn [show].
      destruct (negb (String.eqb f EmptyString)) eqn:Hf.
      + cbn [map]. rewrite <- (app_nil_r [StreamChunk f]).
        eapply emits_bind; [apply emits_streamChunk | apply emits_ret].
      + apply (truthy_Some_false f) in Hf. subst f. rewrite append_nil_r.
        destruct s. apply emits_ret.
    - change (default EmptyString None) with EmptyString.
      rewrite append_nil_r. destruct s. apply emits_ret. }
  destruct (chunk_usage c) as [u|]; destruct (delta_tool_calls c) as [tcs|];
    try (destruct (traced_forEach processToolCall tcs traced_processToolCall
                     (functionCalls s1)) as (ss & [fcs|msg] & Hloop)).
  all: try (exists ss, (Throw msg); split; [|done];
            rewrite map_app; eapply emits_bind; [exact H1|];
            eapply emits_bind_throw; eapply emits_bind_throw; exact Hloop).
  all: try (exists ss; eexists; split;
            [ rewrite map_app; eapply emits_bind; [exact H1|];
              rewrite <- (app_nil_r (map StreamChunk ss));
              eapply emits_bind;
              [ rewrite <- (app_nil_r (map StreamChunk ss));
                eapply emits_bind; [exact Hloop | apply emits_ret]
              | apply emits_ret ]
            | intros s' [= <-]; done ]).
  all: exists []; eexists; split;
    [ rewrite map_app; eapply emits_bind; [exact H1|];
      rewrite <- (app_nil_r (map StreamChunk []));
      eapply emits_bind; apply emits_ret
    | intros s' [= <-]; done ].
Qed.

(** The loop over the chunks: when it ends normally, the response has grown
    by the texts of the chunks in order, and the truthy texts were streamed
    in that order. *)
Lemma forEach_chunks_emits cs : forall s,
  exists ss r,
    emits (forEach cs processChunk s) (map StreamChunk ss) r /\
    forall s', r = Normal s' ->
      fullResponse s' = fullResponse s +:+ concat_strings (map chunk_text cs) /\
      text_fragments cs `sublist_of` ss.
Proof.
  induction cs as [|c cs IH]; intros s.
  - exists [], (Normal s). split; [apply emits_ret|].
    intros s' [= <-]. split; [by rewrite append_nil_r | constructor].
  - destruct (processChunk_emits c s) as (ss1 & [s1|msg] & Hc & Hfull).
    + destruct (IH s1) as (ss2 & r & Hloop & Hrest).
      exists (((if truthy (delta_content c) then [chunk_text c] else []) ++ ss1) ++ ss2), r.
      split.
      * cbn [forEach]. rewrite map_app.
        eapply emits_bind; [exact Hc | exact Hloop].
      * intros s' ->. destruct (Hrest s' eq_refl) as [Hf Hs]. split.
        -- rewrite Hf, (Hfull s1 eq_refl).
           change (concat_strings (map chunk_text (c :: cs)))
             with (chunk_text c +:+ concat_strings (map chunk_text cs)).
           by rewrite append_assoc.
        -- rewrite text_fragments_cons. rewrite <- app_assoc.
           apply sublist_app; [done|]. by apply sublist_inserts_l.
    + exists ((if truthy (delta_content c) then [chunk_text c] else []) ++ ss1), (Throw msg).
      split; [|done].
      cbn [forEach]. eapply emits_bind_throw. exact Hc.
Qed.

(** A stream of text chunks only. *)
Lemma forEach_text_emits fs : forall s,
  emits (forEach (map TextDelta fs) processChunk s)
    (map StreamChunk (filter (fun f => truthy (Some f)) fs))
    (Normal {| fullResponse := fullResponse s +:+ concat_strings fs;
               usageInfo := usageInfo s; functionCalls := functionCalls s |}).
Proof.
  induction fs as [|f fs IH]; intros s.
  - cbn. rewrite append_nil_r. destruct s. apply emits_ret.
  - cbn [map forEach].
    replace (map StreamChunk (filter (fun f => truthy (Some f)) (f :: fs)))
      with ((if truthy (Some f) then [StreamChunk f] else [])
              ++ map StreamChunk (filter (fun f => truthy (Some f)) fs)).
    2:{ rewrite filter_cons. destruct (truthy (Some f)) eqn:Hf.
        - by rewrite decide_True by done.
        - by rewrite decide_False by (by intros []). }
    eapply emits_bind; [apply processChunk_text|].
    change (concat_strings (f :: fs)) with (f +:+ concat_strings fs).
    rewrite <- append_assoc. apply (IH {| fullResponse := fullResponse s +:+ f;
      usageInfo := usageInfo s; functionCalls := functionCalls s |}).
Qed.

End LoopProperties.

(** ** main.js: the exact calls of the streaming loop *)

Section LoopTrace.
Context {rt : Runtime} {sv : Services}.

Lemma traced_tool_loop c fcs : traced (tool_loop c fcs).
Proof.
  unfold tool_loop. destruct (delta_tool_calls c).
  - apply traced_forEach, traced_processToolCall.
  - apply traced_ret.
Qed.

(** The calls of one chunk: its text, then those of its tool-call deltas. *)
Lemma processChunk_exact c s tools r :
  emits (tool_loop c (functionCalls s)) tools r ->
  emits (processChunk c s) (text_calls c ++ tools)
    (match r with
     | Normal fcs =>
       Normal {| fullResponse := fullResponse s +:+ chunk_text c;
                 usageInfo := match chunk_usage c with
                              | Some u => Some u
                              | None => usageInfo s
                              end;
                 functionCalls := fcs |}
     | Throw msg => Throw msg
     end).
Proof.
  intros Htools. unfold processChunk.
  set (s1 := {| fullResponse := fullResponse s +:+ chunk_text c;
                usageInfo := usageInfo s; functionCalls := functionCalls s |}).
  assert (H1 : emits
    (if truthy (delta_content c)
     then let content := show (delta_content c) in
          let s0 := {| fullResponse := fullResponse s +:+ content;
                       usageInfo := usageInfo s; functionCalls := functionCalls s |} in
          streamChunk content ;; ret s0
     else ret s)
    (text_calls c) (Normal s1)).
  { subst s1. unfold text_calls, chunk_text.
    destruct (delta_content c) as [f|]; cbn [truthy].
    - change (default EmptyString (Some f)) with f. cbn [show].
      destruct (negb (String.eqb f EmptyString)) eqn:Hf.
      + rewrite <- (app_nil_r [StreamChunk f]).
        eapply emits_bind; [apply emits_streamChunk | apply emits_ret].
      + apply (truthy_Some_false f) in Hf. subst f. rewrite append_nil_r.
        destruct s. apply emits_ret.
    - change (default EmptyString None) with EmptyString.
      rewrite append_nil_r. destruct s. apply emits_ret. }
  eapply emits_bind; [exact H1|].
  unfold tool_loop in Htools.
  destruct r as [fcs|msg].
  - rewrite <- (app_nil_r tools). eapply emits_bind.
    + destruct (delta_tool_calls c) as [tcs|].
      * rewrite <- (app_nil_r tools). eapply emits_bind; [exact Htools | apply emits_ret].
      * destruct (emits_det _ _ _ _ _ Htools (emits_ret _)) as [-> [= ->]].
        apply emits_ret.
    + destruct (chunk_usage c); apply emits_ret.
  - eapply emits_bind_throw. destruct (delta_tool_calls c) as [tcs|].
    + eapply emits_bind_throw. exact Htools.
    + by destruct (emits_det _ _ _ _ _ Htools (emits_ret _)) as [_ [=]].
Qed.

(** The calls of the whole loop, chunk after chunk. *)
Lemma forEach_chunks_exact cs : forall s,
  exists trace r,
    emits (forEach cs processChunk s) trace r /\
    forall s', r = Normal s' ->
      fullResponse s' = fullResponse s +:+ concat_strings (map chunk_text cs) /\
      loop_calls cs (functionCalls s) trace (functionCalls s').
Proof.
  induction cs as [|c cs IH]; intros s.
  - exists [], (Normal s). split; [apply emits_ret|].
    intros s' [= <-]. split; [by rewrite append_nil_r | constructor].
  - destruct (traced_tool_loop c (functionCalls s)) as (ss & rt' & Htools).
    pose proof (processChunk_exact c s _ _ Htools) as Hc.
    destruct rt' as [fcs|msg].
    + match type of Hc with emits _ _ (Normal ?x) => set (s1 := x) in * end.
      destruct (IH s1) as (rest & r & Hloop & Hrest).
      exists ((text_calls c ++ map StreamChunk ss) ++ rest), r. split.
      * cbn [forEach]. eapply emits_bind; [exact Hc | exact Hloop].
      * intros s' ->. destruct (Hrest s' eq_refl) as [Hf Hl]. split.
        -- rewrite Hf. subst s1. cbn [fullResponse].
           change (concat_strings (map chunk_text (c :: cs)))
             with (chunk_text c +:+ concat_strings (map chunk_text cs)).
           by rewrite append_assoc.
        -- rewrite <- app_assoc. econstructor; [exact Htools | exact Hl].
    + exists (text_calls c ++ map StreamChunk ss), (Throw msg). split; [|done].
      cbn [forEach]. eapply emits_bind_throw. exact Hc.
Qed.

(** What a tool-call delta sends is an announcement or a progress message. *)
Lemma processToolCall_notifies toolCall fcs :
  exists cs r, emits (processToolCall toolCall fcs) cs r /\
               Forall is_tool_notification cs.
Proof.
  unfold processToolCall. destruct (tc_function toolCall) as [fn|].
  2:{ exists [], (Normal fcs). split; [apply emits_ret | constructor]. }
  set (fcs1 := if (length fcs <=? tc_index toolCall)%nat
               then fcs ++ [new_slot toolCall fn] else fcs).
  set (ann := if (length fcs <=? tc_index toolCall)%nat
              then [StreamChunk (announceMsg (tcf_name fn))] else []).
  assert (Hann : Forall is_tool_notification ann).
  { subst ann. destruct (_ <=? _)%nat; [|constructor].
    constructor; [left; by exists (tcf_name fn) | constructor]. }
  assert (H1 : emits
    (if (length fcs <=? tc_index toolCall)%nat
     then
       let functionCalls := fcs ++
         [ {| fc_id := tc_id toolCall; fc_type := "function";
              fc_function := {| name := tcf_name fn; arguments := EmptyString |} |} ] in
       streamChunk (nl +:+ "🔧 **Calling function:** " +:+ show (tcf_name fn)) ;;
       ret functionCalls
     else ret fcs) ann (Normal fcs1)).
  { subst ann fcs1. destruct (_ <=? _)%nat.
    - cbv zeta.
      eapply (emits_bind _ _ [_] _ []); [apply emits_streamChunk | apply emits_ret].
    - apply emits_ret. }
  destruct (truthy (tcf_arguments fn)).
  - destruct (fcs1 !! tc_index toolCall) as [slot|] eqn:Hslot.
    + eexists (ann ++ progress_calls _), _. split.
      * eapply emits_bind; [exact H1|]. rewrite Hslot.
        match goal with |- emits _ ?l _ => rewrite <- (app_nil_r l) end.
        eapply emits_bind; [apply progress_emits | apply emits_ret].
      * apply Forall_app. split; [exact Hann|].
        unfold progress_calls. destruct (looks_complete _); [|constructor].
        destruct (JSON_parse _) as [v|]; [|constructor].
        constructor; [right; by exists v | constructor].
    + exists ann, (Throw "Cannot read properties of undefined (reading 'function')").
      split; [|exact Hann]. rewrite <- (app_nil_r ann).
      eapply emits_bind; [exact H1|]. rewrite Hslot. apply emits_throw.
  - exists ann, (Normal fcs1). split; [|exact Hann]. rewrite <- (app_nil_r ann).
    eapply emits_bind; [exact H1 | apply emits_ret].
Qed.

Lemma forEach_processToolCall_notifies tcs : forall fcs,
  exists cs r, emits (forEach tcs processToolCall fcs) cs r /\
               Forall is_tool_notification cs.
Proof.
  induction tcs as [|tc tcs IH]; intros fcs.
  - exists [], (Normal fcs). split; [apply emits_ret | constructor].
  - destruct (processToolCall_notifies tc fcs) as (cs1 & [fcs1|msg] & H1 & F1).
    + destruct (IH fcs1) as (cs2 & r & H2 & F2).
      exists (cs1 ++ cs2), r. split.
      * cbn [forEach]. eapply emits_bind; [exact H1 | exact H2].
      * apply Forall_app. by split.
    + exists cs1, (Throw msg). split; [|exact F1].
      cbn [forEach]. eapply emits_bind_throw. exact H1.
Qed.

Lemma tool_loop_notifies c fcs tools r :
  emits (tool_loop c fcs) tools r -> Forall is_tool_notification tools.
Proof.
  intros Hem. unfold tool_loop in Hem. destruct (delta_tool_calls c) as [tcs|].
  - destruct (forEach_processToolCall_notifies tcs fcs) as (cs & r' & H' & F).
    by destruct (emits_det _ _ _ _ _ Hem H') as [-> _].
  - destruct (emits_det _ _ _ _ _ Hem (emits_ret _)) as [-> _]. constructor.
Qed.

End LoopTrace.

(** ** main.js: processMessage *)

Section ProcessMessage.
Context {rt : Runtime} {sv : Services}.

Lemma bind_normal {A B} (m : M A) (k : A -> M B) e e' a :
  m e = (e', Normal a) -> bind m k e = k a e'.
Proof. intros Hm. unfold bind. by rewrite Hm. Qed.

(** Without a usable key nothing but the two calls to the platform happens. *)
Lemma processMessage_missing_key data now_user now_assistant :
  truthy (Variables_get (variables data) "OPENAI_API_KEY") = false ->
  emits (processMessage data now_user now_assistant)
    [StreamChunk missingKeyMsg; CompleteResponse missingKeyMsg None None] (Normal tt).
Proof.
  intros Hk. unfold processMessage. cbv zeta. rewrite Hk. cbn [negb].
  apply emits_try.
  change [StreamChunk missingKeyMsg; CompleteResponse missingKeyMsg None None]
    with ([StreamChunk missingKeyMsg] ++ [CompleteResponse missingKeyMsg None None]).
  eapply emits_bind; [apply emits_streamChunk | apply emits_send].
Qed.

(** The file handling changes the messages only. *)
Lemma file_handling_emits data (messages : list OpenAIMessage) :
  exists messages',
    emits
      (if bool_decide (file_type data = Some "pdf") && truthy (file_url data) then
         try_catch
           (pdfText <- lift (fetch_pdf_text (show (file_url data))) ;;
            let combinedContent :=
              message data +:+ nl +:+ nl +:+ "PDF Content:" +:+ nl +:+ pdfText in
            ret (set_last_user_content (fun _ => Text combinedContent) messages))
           (fun _ => ret messages)
       else if bool_decide (file_type data = Some "image") && truthy (file_url data) then
         ret (set_last_user_content
                (fun c => TextAndImage (content_text c) (show (file_url data))) messages)
       else ret messages)
      [] (Normal messages').
Proof.
  destruct (_ && _).
  - destruct (fetch_pdf_text (show (file_url data))) as [pdfText|msg] eqn:Hpdf.
    + eexists. apply emits_try. change (@nil LexiaCall) with (@nil LexiaCall ++ []).
      eapply emits_bind; [apply emits_lift | apply emits_ret].
    + eexists. change (@nil LexiaCall) with (@nil LexiaCall ++ []).
      eapply emits_try_throw; [|apply emits_ret].
      eapply emits_bind_throw. apply emits_lift.
  - destruct (_ && _); eexists; apply emits_ret.
Qed.

Lemma first_fileUrl_truthy rs :
  first_fileUrl rs = None \/ truthy (first_fileUrl rs) = true.
Proof.
  induction rs as [|r rs IH]; [by left|]. cbn.
  destruct (truthy (fileUrl r)) eqn:Hr; [by right | exact IH].
Qed.

(** With a key, a completion call that yields [stream], and a stream the loop
    drains without an error, the request ends on the completion path. *)
Lemma processMessage_completes data now_user now_assistant stream s cs :
  truthy (Variables_get (variables data) "OPENAI_API_KEY") = true ->
  (forall k m msgs, chat_completions_create k m msgs = Normal stream) ->
  emits (forAwait stream initial_locals) cs (Normal s) ->
  exists ss rs,
    Forall2 (fun fc r => exists cs', emits (executeFunctionCall fc data) cs' (Normal r))
            (functionCalls s) rs /\
    forall e,
      processMessage data now_user now_assistant e =
      ({| world := world_after data now_user now_assistant
                     (fullResponse s +:+ concat_strings (map result rs)) (world e);
          lexia := lexia e ++ cs ++ map StreamChunk ss ++
                   [CompleteResponse (fullResponse s +:+ concat_strings (map result rs))
                      (usageInfo s) (first_fileUrl rs)] |},
       Normal tt).
Proof.
  intros Hk Hcreate Hloop.
  destruct (processFunctionCalls_emits data (functionCalls s)) as (ss & rs & Hrs & Htools).
  exists ss, rs. split; [done|]. intros e.
  unfold processMessage. cbv zeta. rewrite Hk. cbn [negb].
  unfold try_catch at 1.
  erewrite bind_normal by reflexivity. cbn [world lexia].
  set (w1 := addMessage (thread_id data) "user" (message data) now_user (world e)).
  erewrite bind_normal.
  2:{ unfold conversationManager_getHistory. cbn [world lexia].
      rewrite (surjective_pairing (getHistory (thread_id data) w1)). reflexivity. }
  erewrite bind_normal by reflexivity.
  set (e2 := {| world := (getHistory (thread_id data) w1).2; lexia := lexia e |}).

  match goal with
  | |- context [formatMessagesForOpenAI ?p ?h ?m] =>
    destruct (file_handling_emits data (formatMessagesForOpenAI p h m)) as [messages' Hfile]
  end.
  erewrite bind_normal by apply Hfile. rewrite push_calls_nil.
  erewrite bind_normal by (unfold lift; rewrite Hcreate; reflexivity).
  erewrite bind_normal by apply Hloop.
  erewrite bind_normal by apply Htools.
  cbn [result fileUrl].
  unfold update_world at 1. erewrite bind_normal by reflexivity.
  assert (Htext : (if truthy (Some (concat_strings (map result rs)))
                   then fullResponse s +:+ concat_strings (map result rs)
                   else fullResponse s)
                  = fullResponse s +:+ concat_strings (map result rs)).
  { destruct (truthy (Some _)) eqn:Ht; [done|].
    apply truthy_Some_false in Ht. by rewrite Ht, append_nil_r. }
  rewrite Htext.
  assert (Hfile' : (if truthy (first_fileUrl rs) then first_fileUrl rs else None)
                   = first_fileUrl rs).
  { destruct (first_fileUrl_truthy rs) as [-> | ->]; done. }
  rewrite Hfile'.
  assert (Hend : forall e0,
    (if truthy (first_fileUrl rs)
     then completeResponse (fullResponse s +:+ concat_strings (map result rs))
            (usageInfo s) (first_fileUrl rs)
     else completeResponse (fullResponse s +:+ concat_strings (map result rs))
            (usageInfo s) None) e0
    = send (CompleteResponse (fullResponse s +:+ concat_strings (map result rs))
              (usageInfo s) (first_fileUrl rs)) e0).
  { intros e0. destruct (first_fileUrl_truthy rs) as [E | E]; rewrite E; [done|].
    by destruct (first_fileUrl rs). }
  rewrite Hend. unfold send, push_calls, world_after. cbn [world lexia].
  subst e2 w1. cbn [world lexia]. by rewrite <- !app_assoc.
Qed.

End ProcessMessage.

(** ** The example of the two argument fragments *)

Section FragmentExample.
Context {rt : Runtime} {sv : Services}.

Lemma ex_deltas_first_two :
  emits (forEach (take 2 ex_deltas) processChunk initial_locals)
    [StreamChunk (announceMsg (Some "t"))]
    (Normal {| fullResponse := EmptyString; usageInfo := None;
               functionCalls := [ex_slot frag1] |}).
Proof. intros e. vm_compute. reflexivity. Qed.

Lemma ex_deltas_all v :
  JSON_parse (frag1 +:+ frag2) = Normal v ->
  emits (forEach ex_deltas processChunk initial_locals)
    [StreamChunk (announceMsg (Some "t")); StreamChunk (progressMsg v)]
    (Normal {| fullResponse := EmptyString; usageInfo := None;
               functionCalls := [ex_slot (frag1 +:+ frag2)] |}).
Proof.
  intros Hp. change ex_deltas with (take 2 ex_deltas ++ drop 2 ex_deltas).
  change [StreamChunk (announceMsg (Some "t")); StreamChunk (progressMsg v)]
    with ([StreamChunk (announceMsg (Some "t"))] ++ [StreamChunk (progressMsg v)]).
  eapply emits_forEach_app; [apply ex_deltas_first_two|].
  intros e. vm_compute in Hp. vm_compute. rewrite Hp. reflexivity.
Qed.

End FragmentExample.
(** ** Claims about the conversation store *)

(** C1 (amended).  For a store constructed with a non-negative capacity
    [maxHistory] and any thread id: after [maxHistory + k] appends to that
    thread of a new store, the history has length [min maxHistory
    (maxHistory + k)] and is exactly the [maxHistory] most recent messages in
    the order they were appended, so it contains the [k] most recent ones
    whenever [k <= maxHistory]; after any sequence of appends and clears no
    history is longer than [maxHistory]; and an append to a full history
    removes the oldest message, the new one staying last when
    [maxHistory >= 1]. *)
Theorem bounded_history (h : Heap) (mh : Z) (t : string) :
  (0 <= mh)%Z ->
  (forall (rs : list Append) (k : nat),
     length rs = (Z.to_nat mh + k)%nat ->
     let hist := history t (appends t rs (new_manager h mh)) in
     Z.of_nat (length hist) = Z.min mh (mh + Z.of_nat k) /\
     hist = lastn (Z.to_nat mh) (map message_of rs) /\
     ((k <= Z.to_nat mh)%nat -> lastn k (map message_of rs) `suffix_of` hist)) /\
  (forall (ms : list Mutation) (t' : string),
     (Z.of_nat (length (history t' (foldl mutate (new_manager h mh) ms))) <= mh)%Z) /\
  (forall w r c now,
     reachable w -> maxHistory w = mh ->
     Z.of_nat (length (history t w)) = mh ->
     history t (addMessage t r c now w) = tail (history t w ++ [mkMessage r c now]) /\
     ((1 <= mh)%Z ->
      last (history t (addMessage t r c now w)) = Some (mkMessage r c now))).
Proof.
  intros H0. split; [|split].
  - intros rs k Hlen hist.
    assert (Hh : hist = lastn (Z.to_nat mh) (map message_of rs)).
    { subst hist.
      rewrite (history_appends t rs (new_manager h mh) []);
        [done | apply wf_new | done |].
      by rewrite history_unknown by apply lookup_empty. }
    assert (Hl : length hist = Z.to_nat mh).
    { rewrite Hh. unfold lastn. rewrite length_drop, length_map. lia. }
    split; [lia|]. split; [done|].
    intros Hk. rewrite Hh. unfold lastn. rewrite length_map.
    replace (length rs - k)%nat
      with ((length rs - Z.to_nat mh) + (Z.to_nat mh - k))%nat by lia.
    rewrite <- drop_drop. apply suffix_drop.
  - intros ms t'.
    apply (history_bounded_run ms (new_manager h mh)); [apply wf_new | done |].
    intros t0. rewrite history_unknown by apply lookup_empty. cbn. lia.
  - intros w r c now Hw Hmh Hfull.
    assert (Hev : history t (addMessage t r c now w)
                  = tail (history t w ++ [mkMessage r c now])).
    { rewrite history_addMessage_eq by by apply reachable_wf.
      unfold evict. rewrite length_app. cbn [length].
      destruct (Z.gtb_spec (Z.of_nat (length (history t w) + 1)) (maxHistory w));
        [done | lia]. }
    split; [done|]. intros H1. rewrite Hev.
    destruct (history t w) as [|x l]; [cbn in Hfull; lia|].
    cbn. apply last_snoc.
Qed.

(** C7.  After [clearHistory(threadId)] the history of that thread is empty,
    whatever the state was; clearing twice is the same as clearing once, and
    clearing a thread that is not stored leaves the state as it was. *)
Theorem clearHistory_idempotent (t : string) (w : World) :
  history t (clearHistory t w) = [] /\
  clearHistory t (clearHistory t w) = clearHistory t w /\
  (conversations w !! t = None -> clearHistory t w = w).
Proof.
  split; [apply history_clearHistory_eq|]. split.
  - unfold clearHistory. cbn. by rewrite delete_delete_eq.
  - intros Hn. destruct w as [h mh cs]. unfold clearHistory. cbn in *.
    by rewrite delete_id.
Qed.

(** C8.  In every reachable state, an append to thread [A] leaves the
    history of every other thread [B], and the array stored for it,
    unchanged. *)
Theorem addMessage_other_thread (A B role content now : string) (w : World) :
  reachable w -> A <> B ->
  history B (addMessage A role content now w) = history B w /\
  conversations (addMessage A role content now w) !! B = conversations w !! B.
Proof.
  intros Hw Hne. split.
  - apply history_addMessage_ne; [by apply reachable_wf | done].
  - destruct (conversations w !! A) as [a|] eqn:Ha.
    + by rewrite (addMessage_known _ _ _ _ _ _ Ha).
    + rewrite addMessage_unknown by done.
      erewrite addMessage_known by apply lookup_insert_eq. cbn.
      by rewrite lookup_insert_ne.
Qed.

(** C4 (amended).  [getHistory] copies nothing.  For a stored thread it
    returns the store's own array and leaves the state as it is, so whatever
    the caller does to that array is what a later [getHistory] of the thread
    reads; only for a thread that is not stored is the returned (new, empty)
    array separate from the store, and changing it changes no history. *)
Theorem getHistory_returns_alias (t : string) (w : World) :
  reachable w ->
  (forall a, conversations w !! t = Some a ->
     getHistory t w = (a, w) /\
     forall f, history t (caller_mutates a f w) = f (history t w)) /\
  (conversations w !! t = None ->
     forall f t', history t' (caller_mutates (getHistory t w).1 f (getHistory t w).2)
                  = history t' w).
Proof.
  intros Hw. apply reachable_wf in Hw. destruct Hw as [Hal Hinj]. split.
  - intros a Ha. split; [unfold getHistory; by rewrite Ha|].
    intros f. rewrite (history_known t a w Ha).
    erewrite history_known by exact Ha. cbn.
    apply array_read_alter_eq. eauto.
  - intros Hn f t'. unfold getHistory. rewrite Hn. cbn.
    destruct (conversations w !! t') as [b|] eqn:Hb.
    + rewrite (history_known t' b w Hb).
      erewrite history_known by exact Hb. cbn.
      pose proof (Hal _ _ Hb).
      rewrite array_read_alter_ne by lia. by apply array_read_old.
    + rewrite (history_unknown t' w Hb). by apply history_unknown.
Qed.

Example ex_appends_run :
  history "th" (appends "th" ex_appends (new_manager [] 2)) =
  [ mkMessage "assistant" "four" "t4"; mkMessage "user" "five" "t5" ].
Proof. vm_compute. reflexivity. Qed.

(** With capacity 2 and [k = 3], the five appends leave two messages: the
    history cannot contain the three most recent ones.  With a negative
    capacity the history, of length 0, is longer than the capacity. *)
Lemma bounded_history_counterexample :
  ~ (lastn 3 (map message_of ex_appends)
       `sublist_of` history "th" (appends "th" ex_appends (new_manager [] 2))) /\
  ~ (Z.of_nat (length (history "th"
        (appends "th" (take 1 ex_appends) (new_manager [] (-1))))) <= -1)%Z.
Proof.
  split.
  - intros Hs. apply sublist_length in Hs. vm_compute in Hs. lia.
  - vm_compute. intros H. apply H. reflexivity.
Qed.

(** ** Further properties of the conversation store *)

Lemma conversations_addMessage t r c now w :
  conversations (addMessage t r c now w) =
  match conversations w !! t with
  | Some _ => conversations w
  | None => <[t := length (heap w)]> (conversations w)
  end.
Proof.
  destruct (conversations w !! t) as [a|] eqn:Ha.
  - by rewrite (addMessage_known _ _ _ _ _ _ Ha).
  - rewrite addMessage_unknown by done.
    by erewrite addMessage_known by apply lookup_insert_eq.
Qed.

(** X1.  [addMessage] registers its thread: afterwards the thread ids are
    the old ones and [threadId], and the thread count has grown by one exactly
    when [threadId] was not stored before. *)
Theorem addMessage_registers_thread (t role content now : string) (w : World) :
  getAllThreads (addMessage t role content now w) = {[t]} ∪ getAllThreads w /\
  getThreadCount (addMessage t role content now w) =
    if bool_decide (t ∈ getAllThreads w)
    then getThreadCount w else S (getThreadCount w).
Proof.
  unfold getAllThreads, getThreadCount. rewrite conversations_addMessage.
  destruct (conversations w !! t) as [a|] eqn:Ha.
  - assert (Hin : t ∈ dom (conversations w)) by (apply elem_of_dom; eauto).
    rewrite bool_decide_true by done. split; [|done].
    apply set_eq. intros x. rewrite elem_of_union, elem_of_singleton.
    split; [by right | by intros [->|?]].
  - assert (t ∉ dom (conversations w)) by by apply not_elem_of_dom.
    rewrite bool_decide_false by done. split.
    + apply dom_insert_L.
    + by apply map_size_insert_None.
Qed.

(** X2.  [clearHistory] removes its thread and nothing else: the thread ids
    are the old ones without [threadId], the thread count drops by one
    exactly when the thread was stored, and the history of every other thread
    is what it was. *)
Theorem clearHistory_removes_thread (t : string) (w : World) :
  getAllThreads (clearHistory t w) = getAllThreads w ∖ {[t]} /\
  getThreadCount (clearHistory t w) =
    (if bool_decide (t ∈ getAllThreads w)
     then pred (getThreadCount w) else getThreadCount w) /\
  forall t', t <> t' -> history t' (clearHistory t w) = history t' w.
Proof.
  unfold getAllThreads, getThreadCount. cbn. split; [apply dom_delete_L|]. split.
  - destruct (conversations w !! t) as [a|] eqn:Ha.
    + assert (t ∈ dom (conversations w)) by (apply elem_of_dom; eauto).
      rewrite bool_decide_true by done.
      rewrite map_size_delete, Ha. done.
    + assert (t ∉ dom (conversations w)) by by apply not_elem_of_dom.
      rewrite bool_decide_false by done.
      rewrite map_size_delete, Ha. done.
  - intros t' Hne. by apply history_clearHistory_ne.
Qed.

(** X3.  Reading is not registering: [getHistory] of any thread, stored or
    not, leaves the thread ids, the thread count, the capacity and the
    history of every thread as they were. *)
Theorem getHistory_reads_only (t : string) (w : World) :
  reachable w ->
  getAllThreads (getHistory t w).2 = getAllThreads w /\
  getThreadCount (getHistory t w).2 = getThreadCount w /\
  maxHistory (getHistory t w).2 = maxHistory w /\
  forall t', history t' (getHistory t w).2 = history t' w.
Proof.
  intros Hw. apply reachable_wf in Hw. destruct Hw as [Hal _].
  unfold getAllThreads, getThreadCount, getHistory.
  destruct (conversations w !! t) as [a|]; [done|]. cbn.
  repeat split. intros t'.
  destruct (conversations w !! t') as [b|] eqn:Hb.
  - rewrite (history_known t' b w Hb).
    erewrite history_known by exact Hb. cbn.
    apply array_read_old. eauto.
  - rewrite (history_unknown t' w Hb). by apply history_unknown.
Qed.

(** X4.  What is appended is what is read back: with a capacity of at least
    one, the last message of the history after [addMessage] is the new
    message with its role, content and timestamp; and while the history is
    shorter than the capacity nothing is evicted, the history being the old
    one followed by the new message. *)
Theorem addMessage_then_history (t role content now : string) (w : World) :
  reachable w -> (1 <= maxHistory w)%Z ->
  last (history t (addMessage t role content now w))
    = Some (mkMessage role content now) /\
  ((Z.of_nat (length (history t w)) < maxHistory w)%Z ->
   history t (addMessage t role content now w)
     = history t w ++ [mkMessage role content now]).
Proof.
  intros Hw H1. rewrite history_addMessage_eq by by apply reachable_wf.
  unfold evict. rewrite length_app. cbn [length].
  destruct (Z.gtb_spec (Z.of_nat (length (history t w) + 1)) (maxHistory w)).
  - split; [|lia]. destruct (history t w) as [|x l]; [cbn in *; lia|].
    cbn. apply last_snoc.
  - split; [apply last_snoc | done].
Qed.

(** X5.  [addMessage] evicts at most one message (its test is an [if], not
    a loop): the history grows by one when the result fits the capacity and
    keeps its length otherwise.  So a history that a caller made longer than
    the capacity through the array it was handed stays longer than the
    capacity. *)
Theorem addMessage_evicts_at_most_one (t role content now : string) (w : World) :
  reachable w ->
  length (history t (addMessage t role content now w)) =
    (if (Z.of_nat (length (history t w)) + 1 >? maxHistory w)%Z
     then length (history t w) else S (length (history t w))) /\
  ((maxHistory w < Z.of_nat (length (history t w)))%Z ->
   (maxHistory w < Z.of_nat (length (history t (addMessage t role content now w))))%Z).
Proof.
  intros Hw.
  assert (Hlen : length (history t (addMessage t role content now w)) =
    (if (Z.of_nat (length (history t w)) + 1 >? maxHistory w)%Z
     then length (history t w) else S (length (history t w)))).
  { rewrite history_addMessage_eq by by apply reachable_wf.
    unfold evict. rewrite length_app. cbn [length].
    replace (Z.of_nat (length (history t w) + 1))
      with (Z.of_nat (length (history t w)) + 1)%Z by lia.
    destruct (_ >? _)%Z.
    - destruct (history t w) as [|x l]; [done|]. cbn. rewrite length_app. cbn. lia.
    - rewrite length_app. cbn. lia. }
  split; [exact Hlen|]. intros Hover. rewrite Hlen.
  destruct (Z.gtb_spec (Z.of_nat (length (history t w)) + 1) (maxHistory w)); lia.
Qed.

Lemma unstamped_evict (mh : Z) (l1 l2 : list Message) :
  map unstamped l1 = map unstamped l2 ->
  map unstamped (evict mh l1) = map unstamped (evict mh l2).
Proof.
  intros Heq. assert (Hlen : length l1 = length l2).
  { by rewrite <- (length_map unstamped l1), Heq, length_map. }
  unfold evict. rewrite Hlen. destruct (_ >? _)%Z; [|done].
  destruct l1, l2; try discriminate; [done|]. cbn in *. by injection Heq.
Qed.

(** X6.  Appends to different threads commute up to the timestamps: the
    clock is read at each call, so the timestamps depend on the order, but
    whichever of the two appends comes first, and whatever the clock reads,
    every thread has the same sequence of roles and contents afterwards; and
    the history of a third thread is what it was. *)
Theorem addMessage_commutes (A B rA cA rB cB now1 now2 now1' now2' : string)
  (w : World) :
  reachable w -> A <> B ->
  forall t,
    map unstamped
      (history t (addMessage A rA cA now2 (addMessage B rB cB now1 w))) =
    map unstamped
      (history t (addMessage B rB cB now2' (addMessage A rA cA now1' w))) /\
    (t <> A -> t <> B ->
     history t (addMessage A rA cA now2 (addMessage B rB cB now1 w)) = history t w /\
     history t (addMessage B rB cB now2' (addMessage A rA cA now1' w)) = history t w).
Proof.
  intros Hw Hne t. apply reachable_wf in Hw.
  pose proof (wf_addMessage A rA cA now1' w Hw) as HwA.
  pose proof (wf_addMessage B rB cB now1 w Hw) as HwB.
  split.
  - destruct (decide (t = A)) as [->|HtA]; [|destruct (decide (t = B)) as [->|HtB]].
    + rewrite history_addMessage_eq by done.
      rewrite (history_addMessage_ne B A) by done.
      rewrite (history_addMessage_ne B A) by done.
      rewrite history_addMessage_eq by done.
      rewrite maxHistory_addMessage. apply unstamped_evict.
      by rewrite !map_app.
    + rewrite (history_addMessage_ne A B) by done.
      rewrite history_addMessage_eq by done.
      rewrite history_addMessage_eq by done.
      rewrite (history_addMessage_ne A B) by done.
      rewrite maxHistory_addMessage. apply unstamped_evict.
      by rewrite !map_app.
    + by rewrite !history_addMessage_ne by done.
  - intros HtA HtB. by rewrite !history_addMessage_ne by done.
Qed.

Lemma stored_nonempty_mutate w m :
  wf w -> (1 <= maxHistory w)%Z ->
  (forall t, is_Some (conversations w !! t) -> history t w <> []) ->
  forall t, is_Some (conversations (mutate w m) !! t) -> history t (mutate w m) <> [].
Proof.
  intros Hw H1 Hinv t. destruct m as [t' r|t']; cbn.
  - destruct (decide (t' = t)) as [->|Hne].
    + intros _. rewrite history_addMessage_eq by done.
      unfold evict. rewrite length_app. cbn [length].
      destruct (Z.gtb_spec (Z.of_nat (length (history t w) + 1)) (maxHistory w)).
      * destruct (history t w) as [|x l]; [cbn in *; lia|].
        cbn. by destruct l.
      * by destruct (history t w).
    + rewrite history_addMessage_ne by done.
      rewrite conversations_addMessage.
      destruct (conversations w !! t'); [apply Hinv|].
      rewrite lookup_insert_ne by done. apply Hinv.
  - destruct (decide (t' = t)) as [->|Hne].
    + rewrite lookup_delete_eq. by intros [? ?].
    + rewrite lookup_delete_ne by done.
      rewrite history_clearHistory_ne by done. apply Hinv.
Qed.

(** X7.  With a capacity of at least one, a manager that is only used
    through [addMessage] and [clearHistory] stores exactly the threads that
    have at least one message: a thread id is among [getAllThreads] if and
    only if its history is not empty. *)
Theorem stored_threads_have_messages (h : Heap) (mh : Z) (ms : list Mutation)
  (t : string) :
  (1 <= mh)%Z ->
  t ∈ getAllThreads (foldl mutate (new_manager h mh) ms) <->
  history t (foldl mutate (new_manager h mh) ms) <> [].
Proof.
  intros H1.
  assert (Hinv : forall ms w, wf w -> (1 <= maxHistory w)%Z ->
    (forall t, is_Some (conversations w !! t) -> history t w <> []) ->
    forall t, is_Some (conversations (foldl mutate w ms) !! t) ->
              history t (foldl mutate w ms) <> []).
  { clear. induction ms as [|m ms IH]; intros w Hw H1 Hinv; [exact Hinv|].
    cbn. apply IH.
    - by apply wf_mutate.
    - by rewrite maxHistory_mutate.
    - by apply stored_nonempty_mutate. }
  unfold getAllThreads. rewrite elem_of_dom. split.
  - apply Hinv; [apply wf_new | done |].
    intros t0. cbn. rewrite lookup_empty. by intros [? ?].
  - intros Hne. destruct (conversations _ !! t) eqn:E; [eauto|].
    by rewrite history_unknown in Hne.
Qed.

(** ** Claims about the message list, the stream assembly and the tools *)

Lemma foldl_snoc_map {A B} (f : A -> B) (l : list A) : forall init : list B,
  foldl (fun acc x => acc ++ [f x]) init l = init ++ map f l.
Proof.
  induction l as [|x l IH]; intros init; cbn.
  - by rewrite app_nil_r.
  - by rewrite IH, <- app_assoc.
Qed.

(** C9.  [formatMessagesForOpenAI] builds exactly: the system prompt first,
    then the messages of the history from oldest to newest, each reduced to
    its role and content (the timestamp is dropped), then the current message
    with role [user] last. *)
Theorem formatMessagesForOpenAI_order (systemPrompt : string)
  (conversationHistory : list Message) (currentMessage : string) :
  formatMessagesForOpenAI systemPrompt conversationHistory currentMessage =
  {| msg_role := "system"; msg_content := Text systemPrompt |}
  :: map (fun msg => {| msg_role := role msg; msg_content := Text (content msg) |})
         conversationHistory
  ++ [ {| msg_role := "user"; msg_content := Text currentMessage |} ].
Proof. unfold formatMessagesForOpenAI. by rewrite foldl_snoc_map. Qed.

Section Claims.
Context {rt : Runtime} {sv : Services}.




(** C10.  When the lookup of [OPENAI_API_KEY] in the variables of the
    message yields nothing or an empty value, [processMessage] returns after
    one [streamChunk] and one [completeResponse] with the missing-key message,
    and the conversation manager is left as it was: no history of any thread
    changes. *)
Theorem missing_key_leaves_store (data : ChatMessage) (now_user now_assistant : string)
  (e : Env) :
  truthy (Variables_get (variables data) "OPENAI_API_KEY") = false ->
  exists e',
    processMessage data now_user now_assistant e = (e', Normal tt) /\
    world e' = world e /\
    lexia e' = lexia e ++
      [StreamChunk missingKeyMsg; CompleteResponse missingKeyMsg None None] /\
    forall t, history t (world e') = history t (world e).
Proof.
  intros Hk. eexists. split;
    [apply (processMessage_missing_key data now_user now_assistant Hk)|].
  by cbn.
Qed.

(** C6.  [processFunctionCalls] never throws.  Each invocation returns its
    own result whatever happens to the others, the combined text is the
    texts of all invocations in order, and an invocation that fails (unknown
    tool, argument text that does not parse, [null] arguments, image request
    that throws) contributes its failure text and no file, so that text is
    part of the combined text. *)
Theorem tool_failure_contained (data : ChatMessage) (fcs : list FunctionCall) :
  exists ss rs,
    Forall2 (fun fc r =>
               (exists cs, emits (executeFunctionCall fc data) cs (Normal r)) /\
               forall txt, invocation_fails data fc txt ->
                           r = {| result := txt; fileUrl := None |})
            fcs rs /\
    emits (processFunctionCalls fcs data) (map StreamChunk ss)
      (Normal {| result := concat_strings (map result rs);
                 fileUrl := first_fileUrl rs |}) /\
    forall fc txt, fc ∈ fcs -> invocation_fails data fc txt ->
                   substring txt (concat_strings (map result rs)).
Proof.
  destruct (processFunctionCalls_emits data fcs) as (ss & rs & Hrs & Hem).
  assert (Hrs' : Forall2 (fun fc r =>
               (exists cs, emits (executeFunctionCall fc data) cs (Normal r)) /\
               forall txt, invocation_fails data fc txt ->
                           r = {| result := txt; fileUrl := None |}) fcs rs).
  { eapply Forall2_impl; [exact Hrs|]. intros fc r [cs Hr]. split; [by exists cs|].
    intros txt Hf. destruct (executeFunctionCall_failure fc data txt Hf) as [cs' Hr'].
    destruct (emits_det _ _ _ _ _ Hr Hr') as [_ E]. congruence. }
  exists ss, rs. split; [done|]. split; [done|].
  intros fc txt [i Hi]%list_elem_of_lookup Hf.
  destruct (Forall2_lookup_l _ _ _ _ _ Hrs' Hi) as (r & Hr & _ & Hres).
  apply substring_concat. apply list_elem_of_lookup. exists i.
  rewrite list_lookup_fmap, Hr. cbn. by rewrite (Hres txt Hf).
Qed.


(** C3 (amended).  For a delta with a non-empty argument fragment the
    fragment is appended to the slot; a progress notification is then sent if
    and only if the accumulated text ends with a double quote, a closing
    brace or a closing bracket and [JSON.parse] accepts it (the parse is only
    tried behind that test, and its failure is not an error).  For the
    fragments [{"a":] then [1}] nothing but the announcement has been sent
    after the first fragment, and one notification follows the second. *)
Theorem progress_notification_guarded :
  (forall toolCall fn frag fcs,
     tc_function toolCall = Some fn ->
     tcf_arguments fn = Some frag -> frag <> EmptyString ->
     (tc_index toolCall <= length fcs)%nat ->
     let created := (length fcs <=? tc_index toolCall)%nat in
     let fcs1 := if created then fcs ++ [new_slot toolCall fn] else fcs in
     exists slot,
       fcs1 !! tc_index toolCall = Some slot /\
       let currentArgs := arguments (fc_function slot) +:+ frag in
       emits (processToolCall toolCall fcs)
         ((if created then [StreamChunk (announceMsg (tcf_name fn))] else [])
            ++ progress_calls currentArgs)
         (Normal (<[tc_index toolCall := with_arguments slot currentArgs]> fcs1)) /\
       ((exists v, looks_complete currentArgs = true /\
                   JSON_parse currentArgs = Normal v /\
                   progress_calls currentArgs = [StreamChunk (progressMsg v)]) \/
        ((looks_complete currentArgs = false \/
          exists msg, JSON_parse currentArgs = Throw msg) /\
         progress_calls currentArgs = []))) /\
  (forall v, JSON_parse (frag1 +:+ frag2) = Normal v ->
     emits (forEach (take 2 ex_deltas) processChunk initial_locals)
       [StreamChunk (announceMsg (Some "t"))]
       (Normal {| fullResponse := EmptyString; usageInfo := None;
                  functionCalls := [ex_slot frag1] |}) /\
     emits (forEach ex_deltas processChunk initial_locals)
       [StreamChunk (announceMsg (Some "t")); StreamChunk (progressMsg v)]
       (Normal {| fullResponse := EmptyString; usageInfo := None;
                  functionCalls := [ex_slot (frag1 +:+ frag2)] |})).
Proof.
  split.
  - intros toolCall fn frag fcs Hfn Hargs Hne Hidx created fcs1.
    destruct (processToolCall_fragment toolCall fn frag fcs Hfn Hargs Hne Hidx)
      as (slot & Hslot & Hem).
    exists slot. split; [exact Hslot|]. intros currentArgs. split; [exact Hem|].
    unfold progress_calls. destruct (looks_complete currentArgs).
    + destruct (JSON_parse currentArgs) as [v|msg].
      * left. by exists v.
      * right. split; [right; by exists msg | done].
    + right. split; [by left | done].
  - intros v Hp. split; [apply ex_deltas_first_two | by apply ex_deltas_all].
Qed.

(** C5 (amended).  When the loop over the chunks of a stream ends normally,
    the assembled text is the concatenation of the text of all chunks in
    order of arrival, and the calls to the platform are exactly, chunk after
    chunk: the text of the chunk, once, when it is not empty (nothing when it
    is empty), followed by the calls of the tool-call deltas of that chunk,
    which are announcements and progress messages only.  So every non-empty
    fragment is forwarded exactly once, in order of arrival, before anything
    else its chunk causes, and an empty fragment is not forwarded; for a
    stream of text chunks the calls are exactly the non-empty fragments in
    order.  For ["Hello "] then ["world"] the text is ["Hello world"] and
    exactly these two fragments are streamed. *)
Theorem text_is_streamed_in_order :
  (forall (cs : list Chunk) (s : Locals),
     exists trace r,
       emits (forEach cs processChunk s) trace r /\
       forall s', r = Normal s' ->
         fullResponse s' = fullResponse s +:+ concat_strings (map chunk_text cs) /\
         loop_calls cs (functionCalls s) trace (functionCalls s')) /\
  (forall c s tools r,
     emits (tool_loop c (functionCalls s)) tools r ->
     Forall is_tool_notification tools /\
     emits (processChunk c s) (text_calls c ++ tools)
       (match r with
        | Normal fcs =>
          Normal {| fullResponse := fullResponse s +:+ chunk_text c;
                    usageInfo := match chunk_usage c with
                                 | Some u => Some u
                                 | None => usageInfo s
                                 end;
                    functionCalls := fcs |}
        | Throw msg => Throw msg
        end)) /\
  (forall f s,
     emits (processChunk (TextDelta f) s)
       (if truthy (Some f) then [StreamChunk f] else [])
       (Normal {| fullResponse := fullResponse s +:+ f; usageInfo := usageInfo s;
                  functionCalls := functionCalls s |})) /\
  (forall fs : list string,
     emits (forAwait {| chunks := map TextDelta fs; failure := None |} initial_locals)
       (map StreamChunk (filter (fun f => truthy (Some f)) fs))
       (Normal {| fullResponse := concat_strings fs; usageInfo := None;
                  functionCalls := [] |})) /\
  emits (forAwait {| chunks := [TextDelta "Hello "; TextDelta "world"];
                     failure := None |} initial_locals)
    [StreamChunk "Hello "; StreamChunk "world"]
    (Normal {| fullResponse := "Hello world"; usageInfo := None;
               functionCalls := [] |}).
Proof.
  assert (Htext : forall fs : list string,
     emits (forAwait {| chunks := map TextDelta fs; failure := None |} initial_locals)
       (map StreamChunk (filter (fun f => truthy (Some f)) fs))
       (Normal {| fullResponse := concat_strings fs; usageInfo := None;
                  functionCalls := [] |})).
  { intros fs. unfold forAwait. cbn [chunks failure].
    rewrite <- (app_nil_r (map StreamChunk _)).
    eapply emits_bind; [apply forEach_text_emits | apply emits_ret]. }
  split; [|split; [|split; [|split]]].
  - intros cs s. apply forEach_chunks_exact.
  - intros c s tools r Htools. split.
    + by eapply tool_loop_notifies.
    + by apply processChunk_exact.
  - apply processChunk_text.
  - exact Htext.
  - apply (Htext ["Hello "; "world"]).
Qed.

End Claims.

(** ** Further properties of the handlers and of [processMessage] *)

Lemma truthy_append s t : truthy (Some s) = true -> truthy (Some (s +:+ t)) = true.
Proof. destruct s; [done|]. intros _. by rewrite append_cons. Qed.

(** X8.  [formatSystemPrompt] never returns an empty prompt: a system
    message that is missing or empty is replaced by the default prompt, and
    the result always begins with the system message in use. *)
Theorem formatSystemPrompt_never_empty (systemMessage projectSystemMessage : option string) :
  truthy (Some (formatSystemPrompt systemMessage projectSystemMessage)) = true /\
  exists rest,
    formatSystemPrompt systemMessage projectSystemMessage =
    (if truthy systemMessage then show systemMessage
     else "You are a helpful AI assistant.") +:+ rest /\
    (truthy projectSystemMessage = false -> rest = EmptyString).
Proof.
  unfold formatSystemPrompt.
  set (base := if truthy systemMessage then show systemMessage
               else "You are a helpful AI assistant.").
  assert (Hb : truthy (Some base) = true).
  { subst base. destruct systemMessage as [s|]; [|done]. cbn.
    by destruct (negb (String.eqb s EmptyString)) eqn:E. }
  destruct (truthy projectSystemMessage).
  - split; [by apply truthy_append|]. eexists. split; [reflexivity | done].
  - split; [done|]. exists EmptyString. by rewrite append_nil_r.
Qed.

Section Extras.
Context {rt : Runtime} {sv : Services}.

Lemma generateImageWithDALLE_emits prompt vars size quality style :
  emits (generateImageWithDALLE prompt vars size quality style) []
    (match vars with
     | None => Throw ("Error generating image with DALL-E: "
                      +:+ "Variables not provided to generateImageWithDALLE")
     | Some _ =>
       if negb (truthy (Variables_get vars "OPENAI_API_KEY"))
       then Throw ("Error generating image with DALL-E: "
                   +:+ "OpenAI API key not found in variables")
       else match images_generate (show (Variables_get vars "OPENAI_API_KEY"))
                    prompt size quality style with
            | Normal url => Normal url
            | Throw msg => Throw ("Error generating image with DALL-E: " +:+ msg)
            end
     end).
Proof.
  unfold generateImageWithDALLE. destruct vars as [vs|].
  - cbv zeta. destruct (negb (truthy _)).
    + change (@nil LexiaCall) with (@nil LexiaCall ++ []).
      eapply emits_try_throw; [apply emits_throw | apply emits_throw].
    + destruct (images_generate _ _ _ _ _) as [url|msg].
      * apply emits_try, emits_lift.
      * change (@nil LexiaCall) with (@nil LexiaCall ++ []).
        eapply emits_try_throw; [apply emits_lift | apply emits_throw].
  - change (@nil LexiaCall) with (@nil LexiaCall ++ []).
    eapply emits_try_throw; [apply emits_throw | apply emits_throw].
Qed.

(** X9.  [generateImageWithDALLE] streams nothing, and whatever goes wrong
    in it (no variables, no key, a failure of the image service) is thrown
    again with a message that starts with "Error generating image with
    DALL-E: "; without a key the image service decides nothing; with a key,
    the URL the service answers is returned as it is. *)
Theorem generateImageWithDALLE_wraps_errors (prompt : option JSON)
  (vars : option (list VariableEntry)) (size quality style : JSON) :
  exists c,
    emits (generateImageWithDALLE prompt vars size quality style) [] c /\
    (forall msg, c = Throw msg ->
       exists cause, msg = "Error generating image with DALL-E: " +:+ cause) /\
    (vars = None \/ truthy (Variables_get vars "OPENAI_API_KEY") = false ->
       exists msg, c = Throw msg) /\
    (vars <> None -> truthy (Variables_get vars "OPENAI_API_KEY") = true ->
       forall url,
         images_generate (show (Variables_get vars "OPENAI_API_KEY"))
           prompt size quality style = Normal url ->
         c = Normal url).
Proof.
  eexists. split; [apply generateImageWithDALLE_emits|].
  destruct vars as [vs|].
  - destruct (truthy (Variables_get (Some vs) "OPENAI_API_KEY")) eqn:Hk; cbn [negb].
    + destruct (images_generate _ _ _ _ _) as [url|msg] eqn:Hi.
      * split; [done|]. split; [by intros [|]|]. intros _ _ url' [= <-]. done.
      * split; [intros ? [= <-]; eauto|]. split; [by intros [|]|].
        by intros _ _ url' [=].
    + split; [intros ? [= <-]; eauto|]. split; [eauto|]. by intros _ [=].
  - split; [intros ? [= <-]; eauto|]. split; [eauto|]. by intros [].
Qed.

(** X10.  When the arguments parse, are not [null], and the image service
    answers a URL, [executeGenerateImage] streams, in this order, the start
    of the execution, the start of the loading indicator, its end, the
    completion and the result text; it returns that same text, and the URL
    as the file. *)
Theorem executeGenerateImage_success (fc : FunctionCall) (data : ChatMessage)
  (args : JSON) (prompt size quality style : option JSON)
  (vs : list VariableEntry) (url : option string) :
  JSON_parse (arguments (fc_function fc)) = Normal args ->
  get_property args "prompt" = Normal prompt ->
  get_property args "size" = Normal size ->
  get_property args "quality" = Normal quality ->
  get_property args "style" = Normal style ->
  variables data = Some vs ->
  truthy (Variables_get (variables data) "OPENAI_API_KEY") = true ->
  images_generate (show (Variables_get (variables data) "OPENAI_API_KEY")) prompt
    (or_default size "1024x1024") (or_default quality "standard")
    (or_default style "vivid") = Normal url ->
  emits (executeGenerateImage fc data)
    [ StreamChunk (nl +:+ "🚀 **Executing function:** generate_image");
      StreamChunk "[orca.loading.image.start]";
      StreamChunk "[orca.loading.image.end]";
      StreamChunk (nl +:+ "✅ **Function completed successfully:** generate_image");
      StreamChunk (imageResultText prompt url) ]
    (Normal {| result := imageResultText prompt url; fileUrl := url |}).
Proof.
  intros Hp Hpr Hsz Hq Hst Hvs Hk Himg. unfold executeGenerateImage.
  apply emits_try.
  eapply (emits_bind _ _ []); [rewrite Hp; apply emits_lift|].
  eapply (emits_bind _ _ [_]); [apply emits_streamChunk|].
  eapply (emits_bind _ _ [_]); [apply emits_streamChunk|].
  eapply (emits_bind _ _ []); [rewrite Hpr; apply emits_lift|].
  eapply (emits_bind _ _ []); [rewrite Hsz; apply emits_lift|].
  eapply (emits_bind _ _ []); [rewrite Hq; apply emits_lift|].
  eapply (emits_bind _ _ []); [rewrite Hst; apply emits_lift|].
  eapply (emits_bind _ _ []).
  { pose proof (generateImageWithDALLE_emits prompt (variables data)
      (or_default size "1024x1024") (or_default quality "standard")
      (or_default style "vivid")) as Hg.
    rewrite Hk, Himg in Hg. rewrite Hvs in Hg at 2. exact Hg. }
  eapply (emits_bind _ _ [_]); [apply emits_streamChunk|].
  eapply (emits_bind _ _ [_]); [apply emits_streamChunk|].
  eapply (emits_bind _ _ [_] _ []); [apply emits_streamChunk | apply emits_ret].
Qed.

(** X11.  When the image request fails after the arguments were read (no
    key in the variables, or the image service throws), [executeGenerateImage]
    has streamed the start of the execution and the start of the loading
    indicator and streams nothing more: the end of the loading indicator is
    never sent.  It returns the error text and no file. *)
Theorem executeGenerateImage_failure_leaves_loading (fc : FunctionCall)
  (data : ChatMessage) (args : JSON) (prompt size quality style : option JSON)
  (msg : string) :
  JSON_parse (arguments (fc_function fc)) = Normal args ->
  get_property args "prompt" = Normal prompt ->
  get_property args "size" = Normal size ->
  get_property args "quality" = Normal quality ->
  get_property args "style" = Normal style ->
  emits (generateImageWithDALLE prompt (variables data)
           (or_default size "1024x1024") (or_default quality "standard")
           (or_default style "vivid")) [] (Throw msg) ->
  emits (executeGenerateImage fc data)
    [ StreamChunk (nl +:+ "🚀 **Executing function:** generate_image");
      StreamChunk "[orca.loading.image.start]" ]
    (Normal {| result := generate_image_error msg; fileUrl := None |}).
Proof.
  intros Hp Hpr Hsz Hq Hst Hgen. unfold executeGenerateImage.
  eapply (emits_try_throw _ _ [_; _] _ []); [|apply emits_ret].
  eapply (emits_bind _ _ []); [rewrite Hp; apply emits_lift|].
  eapply (emits_bind _ _ [_]); [apply emits_streamChunk|].
  eapply (emits_bind _ _ [_] _ []); [apply emits_streamChunk|].
  eapply (emits_bind _ _ []); [rewrite Hpr; apply emits_lift|].
  eapply (emits_bind _ _ []); [rewrite Hsz; apply emits_lift|].
  eapply (emits_bind _ _ []); [rewrite Hq; apply emits_lift|].
  eapply (emits_bind _ _ []); [rewrite Hst; apply emits_lift|].
  eapply emits_bind_throw. exact Hgen.
Qed.

(** X12.  A delta with an argument fragment whose index is beyond the next
    free slot (an index gap) is fatal: a slot is created at the end, not at
    the index, the call is announced, and the append to the slot at the index
    throws a [TypeError]. *)
Theorem processToolCall_index_gap (toolCall : ToolCallDelta) (fn : ToolCallFunction)
  (fcs : list FunctionCall) :
  tc_function toolCall = Some fn ->
  truthy (tcf_arguments fn) = true ->
  (length fcs < tc_index toolCall)%nat ->
  emits (processToolCall toolCall fcs)
    [StreamChunk (announceMsg (tcf_name fn))]
    (Throw "Cannot read properties of undefined (reading 'function')").
Proof.
  intros Hfn Ht Hgap. unfold processToolCall. rewrite Hfn.
  rewrite (proj2 (Nat.leb_le _ _)) by lia.
  eapply (emits_bind _ _ [_] _ []).
  - eapply (emits_bind _ _ [_] _ []); [apply emits_streamChunk | apply emits_ret].
  - rewrite Ht. rewrite lookup_ge_None_2 by (rewrite length_app; cbn; lia).
    apply emits_throw.
Qed.

(** X13.  A delta for a slot that exists never announces again and never
    changes the identity of the slot: the list keeps its length, every other
    slot is untouched, and the slot keeps its id, type and name, its argument
    text growing by the fragment (by nothing when the delta has none).  The
    id and name such a delta may carry are ignored. *)
Theorem processToolCall_existing_slot (toolCall : ToolCallDelta) (fn : ToolCallFunction)
  (fcs : list FunctionCall) (slot : FunctionCall) :
  tc_function toolCall = Some fn ->
  fcs !! tc_index toolCall = Some slot ->
  let frag := if truthy (tcf_arguments fn) then show (tcf_arguments fn) else EmptyString in
  exists fcs',
    emits (processToolCall toolCall fcs)
      (if truthy (tcf_arguments fn)
       then progress_calls (arguments (fc_function slot) +:+ frag) else [])
      (Normal fcs') /\
    length fcs' = length fcs /\
    (forall j, j <> tc_index toolCall -> fcs' !! j = fcs !! j) /\
    fcs' !! tc_index toolCall =
      Some (with_arguments slot (arguments (fc_function slot) +:+ frag)).
Proof.
  intros Hfn Hslot frag.
  pose proof (lookup_lt_Some _ _ _ Hslot) as Hlt.
  unfold processToolCall. rewrite Hfn.
  rewrite (proj2 (Nat.leb_gt _ _)) by lia.
  subst frag. destruct (truthy (tcf_arguments fn)) eqn:Ht.
  - eexists. split; [|split; [|split]].
    + eapply (emits_bind _ _ []); [apply emits_ret|].
      rewrite Hslot.
      match goal with |- emits _ ?l _ => rewrite <- (app_nil_r l) end.
      eapply emits_bind; [apply progress_emits | apply emits_ret].
    + apply length_insert.
    + intros j Hj. by apply list_lookup_insert_ne.
    + by apply list_lookup_insert_eq.
  - exists fcs. split; [|split; [done|split; [done|]]].
    + eapply (emits_bind _ _ [] _ []); apply emits_ret.
    + rewrite append_nil_r, Hslot. by destruct slot as [? ? []].
Qed.

Lemma processChunk_usage c s e e' s' :
  processChunk c s e = (e', Normal s') ->
  usageInfo s' = match chunk_usage c with Some u => Some u | None => usageInfo s end /\
  (delta_tool_calls c = None -> functionCalls s' = functionCalls s).
Proof.
  unfold processChunk, bind.
  destruct (truthy (delta_content c)); cbn [ret streamChunk send].
  all: destruct (delta_tool_calls c) as [tcs|]; cbn [ret].
  all: try destruct (forEach tcs processToolCall _ _) as [e2 [fcs|msg]]; cbn [ret];
       try discriminate.
  all: destruct (chunk_usage c); unfold ret; intros [= <- <-]; by cbn.
Qed.

(** X14.  When the loop over the chunks ends normally, the usage it kept is
    that of the last chunk that carried one (a later report overwrites an
    earlier one), or the initial value when no chunk carried any; and when no
    chunk carried tool calls, no slot was created.  In particular a stream of
    one usage report alone gives an empty text, no slot and that usage. *)
Theorem usage_last_report_wins (cs : list Chunk) (s : Locals) :
  (forall e e' s',
     forEach cs processChunk s e = (e', Normal s') ->
     usageInfo s' = latest_usage (usageInfo s) cs /\
     (Forall (fun c => delta_tool_calls c = None) cs ->
      functionCalls s' = functionCalls s)) /\
  (forall u,
     emits (forAwait {| chunks := [UsageReport u]; failure := None |} initial_locals) []
       (Normal {| fullResponse := EmptyString; usageInfo := Some u;
                  functionCalls := [] |})).
Proof.
  split.
  - revert s. induction cs as [|c cs IH]; intros s e e' s' Hrun.
    + cbn in Hrun. injection Hrun as <- <-. by split.
    + cbn [forEach] in Hrun. unfold bind in Hrun.
      destruct (processChunk c s e) as [e1 [s1|msg]] eqn:Hc; [|discriminate].
      destruct (processChunk_usage _ _ _ _ _ Hc) as [Hu Hf].
      destruct (IH _ _ _ _ Hrun) as [Hu' Hf']. split.
      * cbn. by rewrite Hu', Hu.
      * intros Hall. inversion Hall; subst. rewrite Hf' by done. by apply Hf.
  - intros u e. rewrite push_calls_nil. reflexivity.
Qed.

Lemma getHistory_after_addMessage t r c now w :
  (getHistory t (addMessage t r c now w)).2 = addMessage t r c now w.
Proof.
  unfold getHistory at 1. rewrite conversations_addMessage.
  destruct (conversations w !! t) as [a|] eqn:Ha.
  - by rewrite Ha.
  - by rewrite lookup_insert_eq.
Qed.

Lemma history_projections t w :
  history t w = array_read (getHistory t w).1 (heap (getHistory t w).2).
Proof. unfold history. by destruct (getHistory t w). Qed.

Lemma try_catch_bind_normal {A B} (m : M A) (k : A -> M B) h e e' a :
  m e = (e', Normal a) -> try_catch (bind m k) h e = try_catch (k a) h e'.
Proof. intros Hm. unfold try_catch, bind. by rewrite Hm. Qed.

(** With a key, [processMessage] stores the user turn, formats the messages
    from the history it then reads, and goes on with the file handling and
    the completion call. *)
Lemma processMessage_split data now_user now_assistant e :
  truthy (Variables_get (variables data) "OPENAI_API_KEY") = true ->
  processMessage data now_user now_assistant e =
  try_catch
    (messages <- file_handling data (formatted_messages data now_user (world e)) ;;
     processMessage_rest data now_assistant
       (Variables_get (variables data) "OPENAI_API_KEY") messages)
    (fun msg => sendError ("Error processing message: " +:+ msg))
    {| world := addMessage (thread_id data) "user" (message data) now_user (world e);
       lexia := lexia e |}.
Proof.
  intros Hk. unfold processMessage. cbv zeta. rewrite Hk. cbn [negb].
  erewrite try_catch_bind_normal by reflexivity. cbn [world lexia].
  erewrite try_catch_bind_normal.
  2:{ unfold conversationManager_getHistory. cbn [world lexia].
      rewrite (surjective_pairing (getHistory _ _)). reflexivity. }
  erewrite try_catch_bind_normal by reflexivity. cbn [world lexia].
  rewrite <- history_projections. rewrite getHistory_after_addMessage.
  reflexivity.
Qed.

(** X15.  When the completion call itself throws, the request fails: the
    only call to the platform is [sendError] with the message of the error,
    nothing is streamed or completed, and the user turn, stored before the
    call, stays in the history without an assistant turn. *)
Theorem completion_call_failure (data : ChatMessage) (now_user now_assistant : string)
  (msg : string) (e : Env) :
  truthy (Variables_get (variables data) "OPENAI_API_KEY") = true ->
  (forall k m msgs, chat_completions_create k m msgs = Throw msg) ->
  processMessage data now_user now_assistant e =
  ({| world := addMessage (thread_id data) "user" (message data) now_user (world e);
      lexia := lexia e ++ [SendError ("Error processing message: " +:+ msg)] |},
   Normal tt).
Proof.
  intros Hk Hcreate. rewrite processMessage_split by done.
  destruct (file_handling_emits data (formatted_messages data now_user (world e)))
    as [messages Hfile].
  erewrite try_catch_bind_normal by apply Hfile. rewrite push_calls_nil.
  unfold processMessage_rest, try_catch, bind, lift. rewrite Hcreate. reflexivity.
Qed.

(** X16.  When the loop over the stream throws (the stream fails after some
    chunks, or a delta skips an index), the request fails: what was streamed
    before stays streamed, then [sendError] is called with the message of the
    error; there is no [completeResponse], no tool is run, and the user turn
    stays in the history without an assistant turn. *)
Theorem stream_failure (data : ChatMessage) (now_user now_assistant : string)
  (stream : Stream) (cs : list LexiaCall) (msg : string) (e : Env) :
  truthy (Variables_get (variables data) "OPENAI_API_KEY") = true ->
  (forall k m msgs, chat_completions_create k m msgs = Normal stream) ->
  emits (forAwait stream initial_locals) cs (Throw msg) ->
  processMessage data now_user now_assistant e =
  ({| world := addMessage (thread_id data) "user" (message data) now_user (world e);
      lexia := lexia e ++ cs ++ [SendError ("Error processing message: " +:+ msg)] |},
   Normal tt).
Proof.
  intros Hk Hcreate Hloop. rewrite processMessage_split by done.
  destruct (file_handling_emits data (formatted_messages data now_user (world e)))
    as [messages Hfile].
  erewrite try_catch_bind_normal by apply Hfile. rewrite push_calls_nil.
  unfold processMessage_rest.
  erewrite try_catch_bind_normal by (unfold lift; rewrite Hcreate; reflexivity).
  unfold try_catch, bind. rewrite Hloop. unfold sendError, send, push_calls. cbn.
  by rewrite <- app_assoc.
Qed.

Lemma evict_snoc (mh : Z) (l : list Message) m :
  (1 <= mh)%Z -> exists l', evict mh (l ++ [m]) = l' ++ [m].
Proof.
  intros H1. unfold evict. rewrite length_app. cbn [length].
  destruct (Z.gtb_spec (Z.of_nat (length l + 1)) mh); [|by exists l].
  destruct l as [|x l]; [cbn in *; lia|]. by exists l.
Qed.

Lemma evict_snoc2 (mh : Z) (l : list Message) m1 m2 :
  (2 <= mh)%Z -> exists l', evict mh (evict mh (l ++ [m1]) ++ [m2]) = l' ++ [m1; m2].
Proof.
  intros H2. destruct (evict_snoc mh l m1 ltac:(lia)) as [l1 ->].
  rewrite <- app_assoc. cbn [app]. unfold evict. rewrite length_app. cbn [length].
  destruct (Z.gtb_spec (Z.of_nat (length l1 + 2)) mh); [|by exists l1].
  destruct l1 as [|x l1]; [cbn in *; lia|]. by exists l1.
Qed.

(** X17.  A request that goes through stores two turns, in this order: with
    a capacity of at least two, the history of the thread ends with the user
    message followed by the assistant turn, whose content is the final
    response: the streamed text followed by the results that
    [executeFunctionCall] returns for the slots of the stream, one after the
    other.  That response is what [completeResponse] receives. *)
Theorem request_stores_both_turns (data : ChatMessage) (now_user now_assistant : string)
  (stream : Stream) (s : Locals) (cs : list LexiaCall) (e : Env) :
  truthy (Variables_get (variables data) "OPENAI_API_KEY") = true ->
  (forall k m msgs, chat_completions_create k m msgs = Normal stream) ->
  emits (forAwait stream initial_locals) cs (Normal s) ->
  reachable (world e) -> (2 <= maxHistory (world e))%Z ->
  exists text tools earlier,
    Forall2 (fun fc r => exists cs', emits (executeFunctionCall fc data) cs' (Normal r))
            (functionCalls s) tools /\
    last (lexia (processMessage data now_user now_assistant e).1)
      = Some (CompleteResponse text (usageInfo s) (first_fileUrl tools)) /\
    text = fullResponse s +:+ concat_strings (map result tools) /\
    history (thread_id data) (world (processMessage data now_user now_assistant e).1)
      = earlier ++ [ mkMessage "user" (message data) now_user;
                     mkMessage "assistant" text now_assistant ].
Proof.
  intros Hk Hcreate Hloop Hw H2.
  destruct (processMessage_completes data now_user now_assistant stream s cs
              Hk Hcreate Hloop) as (ss & rs & Hrs & Hrun).
  rewrite Hrun. cbn [fst world lexia]. unfold world_after.
  rewrite getHistory_after_addMessage.
  apply reachable_wf in Hw.
  rewrite history_addMessage_eq by by apply wf_addMessage.
  rewrite history_addMessage_eq by done. rewrite maxHistory_addMessage.
  destruct (evict_snoc2 (maxHistory (world e)) (history (thread_id data) (world e))
              (mkMessage "user" (message data) now_user)
              (mkMessage "assistant"
                 (fullResponse s +:+ concat_strings (map result rs)) now_assistant) H2)
    as [earlier Hev].
  exists (fullResponse s +:+ concat_strings (map result rs)), rs, earlier.
  split; [exact Hrs|]. split; [|split; [done | exact Hev]].
  rewrite !app_assoc. apply last_snoc.
Qed.

(** X18.  The user message is sent twice.  The history is read after the
    user turn was stored, and [formatMessagesForOpenAI] adds the current
    message once more: for a request without a file and a capacity of at
    least one, the messages end with the user message two times, and these
    are the messages the completion call receives (if the service rejects
    exactly this list, the request fails with its error). *)
Theorem user_message_sent_twice (data : ChatMessage) (now_user now_assistant : string)
  (e : Env) :
  truthy (Variables_get (variables data) "OPENAI_API_KEY") = true ->
  file_type data = None ->
  reachable (world e) -> (1 <= maxHistory (world e))%Z ->
  (exists before,
     formatted_messages data now_user (world e) =
     before ++ [ {| msg_role := "user"; msg_content := Text (message data) |};
                 {| msg_role := "user"; msg_content := Text (message data) |} ]) /\
  (forall msg,
     chat_completions_create (show (Variables_get (variables data) "OPENAI_API_KEY"))
       (model data) (formatted_messages data now_user (world e)) = Throw msg ->
     processMessage data now_user now_assistant e =
     ({| world := addMessage (thread_id data) "user" (message data) now_user (world e);
         lexia := lexia e ++ [SendError ("Error processing message: " +:+ msg)] |},
      Normal tt)).
Proof.
  intros Hk Hfile Hw H1. split.
  - unfold formatted_messages, formatMessagesForOpenAI. rewrite foldl_snoc_map.
    rewrite history_addMessage_eq by by apply reachable_wf.
    destruct (evict_snoc (maxHistory (world e)) (history (thread_id data) (world e))
                (mkMessage "user" (message data) now_user) H1) as [l' ->].
    rewrite map_app. cbn [map role content].
    exists ({| msg_role := "system";
               msg_content := Text (formatSystemPrompt (system_message data)
                                      (project_system_message data)) |}
            :: map api_message l').
    cbn [app]. by rewrite <- app_assoc.
  - intros msg Hcreate. rewrite processMessage_split by done.
    unfold file_handling. rewrite Hfile.
    rewrite !bool_decide_false by discriminate. cbn [andb].
    erewrite try_catch_bind_normal by reflexivity.
    unfold processMessage_rest, try_catch, bind, lift. rewrite Hcreate. reflexivity.
Qed.

(** X19.  A PDF that cannot be fetched or read is ignored: the request is
    handled exactly as the same request without the attachment. *)
Theorem pdf_failure_is_ignored (data : ChatMessage) (now_user now_assistant : string)
  (msg : string) (e : Env) :
  file_type data = Some "pdf" ->
  fetch_pdf_text (show (file_url data)) = Throw msg ->
  processMessage data now_user now_assistant e =
  processMessage (without_file data) now_user now_assistant e.
Proof.
  intros Hpdf Hfetch.
  destruct (truthy (Variables_get (variables data) "OPENAI_API_KEY")) eqn:Hk.
  - rewrite !processMessage_split by done.
    assert (Hf : forall e0 messages,
              file_handling data messages e0 = (e0, Normal messages)).
    { intros e0 messages. unfold file_handling. rewrite Hpdf.
      rewrite bool_decide_true by done.
      rewrite (bool_decide_false (Some "pdf" = Some "image")) by discriminate.
      cbn [andb]. destruct (truthy (file_url data)); [|done].
      unfold try_catch, bind, lift. by rewrite Hfetch. }
    erewrite try_catch_bind_normal by apply Hf.
    erewrite try_catch_bind_normal by reflexivity.
    reflexivity.
  - unfold processMessage. cbv zeta. cbn [variables without_file].
    rewrite Hk. reflexivity.
Qed.

Lemma set_last_user_content_snoc f (l : list OpenAIMessage) c :
  set_last_user_content f (l ++ [ {| msg_role := "user"; msg_content := c |} ]) =
  l ++ [ {| msg_role := "user"; msg_content := f c |} ].
Proof.
  unfold set_last_user_content. rewrite last_snoc. cbn [msg_role msg_content].
  rewrite length_app. cbn [length String.eqb Ascii.eqb Bool.eqb].
  replace (pred (length l + 1)) with (length l + 0)%nat by lia.
  rewrite insert_app_r. done.
Qed.

(** X20.  An attachment changes the last message only.  With an image and
    its URL, the messages sent are the system prompt and the history as
    formatted, and the current user message with its text and the image
    URL; with a PDF whose text could be read, the current user message is
    followed by "PDF Content:" and that text; any other file type, or a file
    without a URL, changes nothing. *)
Theorem attachment_changes_last_message (data : ChatMessage) (systemPrompt : string)
  (conversationHistory : list Message) :
  let before :=
    {| msg_role := "system"; msg_content := Text systemPrompt |}
    :: map api_message conversationHistory in
  let messages :=
    formatMessagesForOpenAI systemPrompt conversationHistory (message data) in
  (file_type data = Some "image" -> truthy (file_url data) = true ->
   emits (file_handling data messages) []
     (Normal (before ++
        [ {| msg_role := "user";
             msg_content := TextAndImage (message data) (show (file_url data)) |} ]))) /\
  (forall pdfText,
     file_type data = Some "pdf" -> truthy (file_url data) = true ->
     fetch_pdf_text (show (file_url data)) = Normal pdfText ->
     emits (file_handling data messages) []
       (Normal (before ++
          [ {| msg_role := "user";
               msg_content := Text (message data +:+ nl +:+ nl +:+ "PDF Content:"
                                    +:+ nl +:+ pdfText) |} ]))) /\
  ((file_type data <> Some "pdf" /\ file_type data <> Some "image")
   \/ truthy (file_url data) = false ->
   emits (file_handling data messages) [] (Normal messages)).
Proof.
  intros before messages.
  assert (Hm : messages = before ++
            [ {| msg_role := "user"; msg_content := Text (message data) |} ]).
  { subst messages before. unfold formatMessagesForOpenAI.
    by rewrite foldl_snoc_map. }
  unfold file_handling. split; [|split].
  - intros Hi Hu. rewrite Hi, Hu.
    rewrite (bool_decide_false (Some "image" = Some "pdf")) by discriminate.
    rewrite bool_decide_true by done. cbn [andb].
    rewrite Hm, set_last_user_content_snoc. apply emits_ret.
  - intros pdfText Hp Hu Hfetch. rewrite Hp, Hu.
    rewrite bool_decide_true by done. cbn [andb].
    apply emits_try. eapply (emits_bind _ _ [] _ []); [rewrite Hfetch; apply emits_lift|].
    cbv zeta. rewrite Hm, set_last_user_content_snoc. apply emits_ret.
  - intros [[Hnp Hni]|Hu].
    + rewrite !bool_decide_false by done. apply emits_ret.
    + rewrite Hu, !andb_false_r. apply emits_ret.
Qed.

Lemma with_arguments_twice slot a b :
  with_arguments (with_arguments slot a) b = with_arguments slot b.
Proof. done. Qed.

Lemma with_arguments_same slot : with_arguments slot (arguments (fc_function slot)) = slot.
Proof. by destruct slot as [? ? []]. Qed.

(** One delta for a slot that exists. *)
Lemma processToolCall_existing_emits toolCall fcs slot :
  fcs !! tc_index toolCall = Some slot ->
  exists cs,
    emits (processToolCall toolCall fcs) cs
      (Normal (<[tc_index toolCall :=
                  with_arguments slot (arguments (fc_function slot)
                                       +:+ delta_fragment toolCall)]> fcs)).
Proof.
  intros Hslot. pose proof (lookup_lt_Some _ _ _ Hslot) as Hlt.
  unfold processToolCall, delta_fragment.
  destruct (tc_function toolCall) as [fn|].
  - rewrite (proj2 (Nat.leb_gt _ _)) by lia.
    destruct (truthy (tcf_arguments fn)) eqn:Ht.
    + eexists. eapply (emits_bind _ _ []); [apply emits_ret|].
      rewrite Hslot.
      eapply (emits_bind _ _ _ _ []); [apply progress_emits | apply emits_ret].
    + exists []. rewrite append_nil_r, with_arguments_same, list_insert_id by done.
      eapply (emits_bind _ _ [] _ []); apply emits_ret.
  - exists []. rewrite append_nil_r, with_arguments_same, list_insert_id by done.
    apply emits_ret.
Qed.

(** X21.  Argument fragments are assembled in order of arrival: after any
    sequence of deltas for one slot that exists, the argument text of the
    slot is its old text followed by the fragments of the deltas, first to
    last; its id, type and name, the other slots and the number of slots are
    as before, and the loop has not thrown. *)
Theorem argument_fragments_concatenate (index : nat) (deltas : list ToolCallDelta)
  (fcs : list FunctionCall) (slot : FunctionCall) :
  fcs !! index = Some slot ->
  Forall (fun d => tc_index d = index) deltas ->
  exists cs,
    emits (forEach deltas processToolCall fcs) cs
      (Normal (<[index :=
                  with_arguments slot
                    (arguments (fc_function slot)
                     +:+ concat_strings (map delta_fragment deltas))]> fcs)).
Proof.
  revert fcs slot. induction deltas as [|d ds IH]; intros fcs slot Hslot Hall.
  - exists []. cbn [map concat_strings foldr forEach].
    rewrite append_nil_r, with_arguments_same, list_insert_id by done.
    apply emits_ret.
  - inversion Hall as [|? ? Hd Hds]; subst.
    destruct (processToolCall_existing_emits d fcs slot Hslot) as [cs1 H1].
    pose proof (lookup_lt_Some _ _ _ Hslot) as Hlt.
    destruct (IH (<[tc_index d :=
                     with_arguments slot (arguments (fc_function slot)
                                          +:+ delta_fragment d)]> fcs)
                 (with_arguments slot (arguments (fc_function slot)
                                       +:+ delta_fragment d))
                 ltac:(by apply list_lookup_insert_eq) Hds) as [cs2 H2].
    exists (cs1 ++ cs2). cbn [forEach]. eapply emits_bind; [exact H1|].
    rewrite with_arguments_twice, list_insert_insert_eq in H2.
    cbn [with_arguments fc_function arguments] in H2.
    change (concat_strings (map delta_fragment (d :: ds)))
      with (delta_fragment d +:+ concat_strings (map delta_fragment ds)).
    rewrite <- append_assoc. exact H2.
Qed.

End Extras.

(** ** The claims on concrete inputs *)

Lemma ex_world_reachable : reachable ex_world.
Proof. apply reach_add, reach_new. Defined.

(** Capacity 2, five appends ([k = 3]): the last two messages remain. *)
Lemma bounded_history_witness :
  (0 <= 2)%Z /\
  history "th" (appends "th" ex_appends (new_manager [] 2))
  = lastn 2 (map message_of ex_appends).
Proof.
  split; [lia|].
  exact (proj1 (proj2 (proj1 (bounded_history [] 2 "th" ltac:(lia))
                         ex_appends 3%nat eq_refl))).
Defined.

(** A caller that pushes on the array [getHistory] returned changes what the
    next [getHistory] of that thread reads. *)
Lemma getHistory_copy_counterexample :
  let '(a, w) := getHistory "th" ex_world in
  history "th" (caller_mutates a (fun l => l ++ [ex_intruder]) w)
  <> history "th" ex_world.
Proof. vm_compute. congruence. Qed.

Lemma getHistory_returns_alias_witness :
  reachable ex_world /\
  getHistory "th" ex_world = (0%nat, ex_world) /\
  history "th" (caller_mutates 0 (fun l => l ++ [ex_intruder]) ex_world)
  = history "th" ex_world ++ [ex_intruder].
Proof.
  split; [exact ex_world_reachable|].
  destruct (proj1 (getHistory_returns_alias "th" ex_world ex_world_reachable)
              0%nat eq_refl) as [Hget Hmut].
  split; [exact Hget | exact (Hmut (fun l => l ++ [ex_intruder]))].
Defined.

Lemma clearHistory_idempotent_witness :
  conversations (new_manager [] 10) !! "th" = None /\
  clearHistory "th" (new_manager [] 10) = new_manager [] 10.
Proof.
  split; [reflexivity|].
  apply (proj2 (proj2 (clearHistory_idempotent "th" (new_manager [] 10)))).
  reflexivity.
Defined.

Lemma addMessage_other_thread_witness :
  reachable ex_world /\ "other" <> "th" /\
  history "th" (addMessage "other" "user" "hello" "t1" ex_world) = history "th" ex_world.
Proof.
  split; [exact ex_world_reachable|]. split; [discriminate|].
  apply (addMessage_other_thread "other" "th" "user" "hello" "t1" ex_world
           ex_world_reachable); discriminate.
Defined.

(** A request whose key is the empty string. *)
Lemma missing_key_leaves_store_witness :
  truthy (Variables_get (Services := ex_services) (variables ex_data_no_key)
            "OPENAI_API_KEY") = false /\
  exists e',
    processMessage (rt := reference_runtime) (sv := ex_services)
      ex_data_no_key "t1" "t2" ex_env = (e', Normal tt) /\
    world e' = world ex_env.
Proof.
  split; [reflexivity|].
  destruct (missing_key_leaves_store (rt := reference_runtime) (sv := ex_services)
              ex_data_no_key "t1" "t2" ex_env eq_refl) as (e' & Hrun & Hw & _).
  exists e'. split; [exact Hrun | exact Hw].
Defined.


Lemma ex_bad_stream_emits :
  emits (forAwait (rt := reference_runtime) ex_bad_stream initial_locals)
    [StreamChunk (announceMsg (Some "generate_image"))] (Normal ex_bad_locals).
Proof. intros e. vm_compute. reflexivity. Defined.


(** The accumulated text [{"a":1}] followed by a space parses, and no
    notification is sent: the calls to the platform stay as they were. *)
Lemma progress_notification_counterexample :
  JSON_parse (Runtime := reference_runtime) (frag1 +:+ frag2 +:+ " ")
  = Normal (JObject [("a", JNumber "1")]) /\
  processToolCall (rt := reference_runtime) ex_padded_delta [ex_slot EmptyString] ex_env
  = (ex_env, Normal [ex_slot (frag1 +:+ frag2 +:+ " ")]).
Proof. vm_compute. split; reflexivity. Qed.

Lemma progress_notification_guarded_witness :
  JSON_parse (Runtime := reference_runtime) (frag1 +:+ frag2)
  = Normal (JObject [("a", JNumber "1")]) /\
  forEach ex_deltas (processChunk (rt := reference_runtime)) initial_locals ex_env
  = (push_calls [StreamChunk (announceMsg (Some "t"));
                 StreamChunk (progressMsg (rt := reference_runtime)
                                (JObject [("a", JNumber "1")]))] ex_env,
     Normal {| fullResponse := EmptyString; usageInfo := None;
               functionCalls := [ex_slot (frag1 +:+ frag2)] |}).
Proof.
  split; [vm_compute; reflexivity|].
  apply (proj2 (proj2 (progress_notification_guarded (rt := reference_runtime))
                  (JObject [("a", JNumber "1")]) ltac:(vm_compute; reflexivity))).
Defined.

(** An empty fragment followed by ["Hi"]: two fragments arrive, one is
    forwarded. *)
Lemma text_is_streamed_counterexample :
  forAwait (rt := reference_runtime)
    {| chunks := [TextDelta EmptyString; TextDelta "Hi"]; failure := None |}
    initial_locals ex_env
  = ({| world := world ex_env; lexia := [StreamChunk "Hi"] |},
     Normal {| fullResponse := "Hi"; usageInfo := None; functionCalls := [] |}).
Proof. vm_compute. reflexivity. Qed.

Lemma text_is_streamed_in_order_witness :
  forAwait (rt := reference_runtime)
    {| chunks := [TextDelta "Hello "; TextDelta "world"]; failure := None |}
    initial_locals ex_env
  = (push_calls [StreamChunk "Hello "; StreamChunk "world"] ex_env,
     Normal {| fullResponse := "Hello world"; usageInfo := None; functionCalls := [] |}).
Proof.
  apply (proj2 (proj2 (proj2 (proj2 (text_is_streamed_in_order (rt := reference_runtime)))))).
Defined.

(** An unknown tool followed by a call with bad arguments: both failure
    texts are in the combined text, in that order. *)
Lemma tool_failure_contained_witness :
  exists rest,
    processFunctionCalls (rt := reference_runtime) (sv := ex_services)
      ex_calls ex_data ex_env
    = (rest,
       Normal {| result := unknown_function_error (Some "get_weather")
                           +:+ generate_image_error "Unexpected token or end of JSON input";
                 fileUrl := None |}).
Proof.
  destruct (tool_failure_contained (rt := reference_runtime) (sv := ex_services)
              ex_data ex_calls) as (ss & rs & Hrs & Hem & _).
  eexists. rewrite Hem.
  apply Forall2_cons_inv_l in Hrs as (r1 & rs1 & [_ H1] & Hrs & ->).
  apply Forall2_cons_inv_l in Hrs as (r2 & rs2 & [_ H2] & Hrs & ->).
  apply Forall2_nil_inv_l in Hrs as ->.
  assert (F1 : invocation_fails (rt := reference_runtime) (sv := ex_services) ex_data
                 {| fc_id := Some "c0"; fc_type := "function";
                    fc_function := {| name := Some "get_weather"; arguments := "{}" |} |}
                 (unknown_function_error (Some "get_weather")))
    by (apply (fails_unknown (rt := reference_runtime)); discriminate).
  assert (F2 : invocation_fails (rt := reference_runtime) (sv := ex_services) ex_data
                 ex_bad_call
                 (generate_image_error "Unexpected token or end of JSON input"))
    by (apply (fails_parse (rt := reference_runtime)); [reflexivity | vm_compute; reflexivity]).
  rewrite (H1 _ F1), (H2 _ F2). reflexivity.
Defined.

(** ** The further properties on concrete inputs *)

Lemma ex_overlong_world_reachable : reachable ex_overlong_world.
Proof. apply reach_caller, reach_add, reach_new. Defined.

Lemma getHistory_reads_only_witness :
  reachable ex_world /\
  getThreadCount (getHistory "nobody" ex_world).2 = getThreadCount ex_world /\
  history "th" (getHistory "nobody" ex_world).2 = history "th" ex_world.
Proof.
  split; [exact ex_world_reachable|].
  destruct (getHistory_reads_only "nobody" ex_world ex_world_reachable)
    as (_ & Hc & _ & Hh).
  split; [exact Hc | exact (Hh "th")].
Defined.

Lemma addMessage_then_history_witness :
  reachable ex_world /\ (1 <= maxHistory ex_world)%Z /\
  last (history "th" (addMessage "th" "assistant" "hello" "t1" ex_world))
  = Some (mkMessage "assistant" "hello" "t1").
Proof.
  split; [exact ex_world_reachable|]. split; [vm_compute; discriminate|].
  apply (addMessage_then_history "th" "assistant" "hello" "t1" ex_world
           ex_world_reachable).
  vm_compute. discriminate.
Defined.

(** Capacity 1, an array of three messages: it still has three after an
    append. *)
Lemma addMessage_evicts_at_most_one_witness :
  reachable ex_overlong_world /\
  (maxHistory ex_overlong_world < Z.of_nat (length (history "th" ex_overlong_world)))%Z /\
  (maxHistory ex_overlong_world <
   Z.of_nat (length (history "th"
     (addMessage "th" "user" "again" "t1" ex_overlong_world))))%Z.
Proof.
  split; [exact ex_overlong_world_reachable|].
  split; [vm_compute; reflexivity|].
  apply (addMessage_evicts_at_most_one "th" "user" "again" "t1" ex_overlong_world
           ex_overlong_world_reachable).
  vm_compute. reflexivity.
Defined.

(** The two orders, with the clock read as it goes on in each. *)
Lemma addMessage_commutes_witness :
  reachable ex_world /\ "a" <> "b" /\
  map unstamped
    (history "a" (addMessage "a" "user" "x" "t2" (addMessage "b" "user" "y" "t1" ex_world))) =
  map unstamped
    (history "a" (addMessage "b" "user" "y" "t2" (addMessage "a" "user" "x" "t1" ex_world))).
Proof.
  split; [exact ex_world_reachable|]. split; [discriminate|].
  apply (addMessage_commutes "a" "b" "user" "x" "user" "y" "t1" "t2" "t1" "t2" ex_world
           ex_world_reachable).
  discriminate.
Defined.

Lemma stored_threads_have_messages_witness :
  (1 <= 2)%Z /\
  ("a" ∈ getAllThreads
           (foldl mutate (new_manager [] 2)
              [MAdd "a" (mkAppend "user" "x" "t1"); MClear "b"]) <->
   history "a" (foldl mutate (new_manager [] 2)
                  [MAdd "a" (mkAppend "user" "x" "t1"); MClear "b"]) <> []).
Proof.
  split; [lia|].
  apply (stored_threads_have_messages [] 2
           [MAdd "a" (mkAppend "user" "x" "t1"); MClear "b"] "a").
  lia.
Defined.

Lemma executeGenerateImage_success_witness :
  JSON_parse (Runtime := reference_runtime) (arguments (fc_function ex_good_call))
  = Normal (JObject [("prompt", JString "cat")]) /\
  executeGenerateImage (rt := reference_runtime) (sv := ex_services)
    ex_good_call ex_data ex_env
  = (push_calls
       [ StreamChunk (nl +:+ "🚀 **Executing function:** generate_image");
         StreamChunk "[orca.loading.image.start]";
         StreamChunk "[orca.loading.image.end]";
         StreamChunk (nl +:+ "✅ **Function completed successfully:** generate_image");
         StreamChunk (imageResultText (rt := reference_runtime) (Some (JString "cat"))
                        (Some "https://img.example/1.png")) ] ex_env,
     Normal {| result := imageResultText (rt := reference_runtime)
                           (Some (JString "cat")) (Some "https://img.example/1.png");
               fileUrl := Some "https://img.example/1.png" |}).
Proof.
  split; [vm_compute; reflexivity|].
  apply (executeGenerateImage_success (rt := reference_runtime) (sv := ex_services)
           ex_good_call ex_data (JObject [("prompt", JString "cat")])
           (Some (JString "cat")) None None None
           [ {| var_name := "OPENAI_API_KEY"; var_value := "sk-test" |} ]
           (Some "https://img.example/1.png")).
  all: vm_compute; reflexivity.
Defined.

Lemma ex_failing_image_emits :
  emits (generateImageWithDALLE (sv := ex_failing_services)
           (Some (JString "cat")) (variables ex_data)
           (or_default (rt := reference_runtime) None "1024x1024")
           (or_default (rt := reference_runtime) None "standard")
           (or_default (rt := reference_runtime) None "vivid")) []
    (Throw "Error generating image with DALL-E: quota exceeded").
Proof. intros e. rewrite push_calls_nil. reflexivity. Defined.

Lemma executeGenerateImage_failure_witness :
  executeGenerateImage (rt := reference_runtime) (sv := ex_failing_services)
    ex_good_call ex_data ex_env
  = (push_calls
       [ StreamChunk (nl +:+ "🚀 **Executing function:** generate_image");
         StreamChunk "[orca.loading.image.start]" ] ex_env,
     Normal {| result := generate_image_error
                           "Error generating image with DALL-E: quota exceeded";
               fileUrl := None |}).
Proof.
  apply (executeGenerateImage_failure_leaves_loading (rt := reference_runtime)
           (sv := ex_failing_services) ex_good_call ex_data
           (JObject [("prompt", JString "cat")]) (Some (JString "cat")) None None None
           "Error generating image with DALL-E: quota exceeded").
  1-5: vm_compute; reflexivity.
  exact ex_failing_image_emits.
Defined.

Lemma processToolCall_index_gap_witness :
  processToolCall (rt := reference_runtime) ex_gap_delta [] ex_env
  = (push_calls [StreamChunk (announceMsg (Some "t"))] ex_env,
     Throw "Cannot read properties of undefined (reading 'function')").
Proof.
  apply (processToolCall_index_gap (rt := reference_runtime) ex_gap_delta
           {| tcf_name := Some "t"; tcf_arguments := Some frag1 |} []).
  - reflexivity.
  - reflexivity.
  - cbn. lia.
Defined.

Lemma processToolCall_existing_slot_witness :
  exists fcs',
    processToolCall (rt := reference_runtime) ex_padded_delta [ex_slot frag1] ex_env
    = (ex_env, Normal fcs') /\
    fcs' !! 0%nat = Some (ex_slot (frag1 +:+ frag1 +:+ frag2 +:+ " ")).
Proof.
  destruct (processToolCall_existing_slot (rt := reference_runtime) ex_padded_delta
              {| tcf_name := None; tcf_arguments := Some (frag1 +:+ frag2 +:+ " ") |}
              [ex_slot frag1] (ex_slot frag1) eq_refl eq_refl)
    as (fcs' & Hem & _ & _ & Hslot).
  exists fcs'. split; [|exact Hslot].
  rewrite (Hem ex_env). reflexivity.
Defined.

Lemma completion_call_failure_witness :
  processMessage (rt := reference_runtime) (sv := ex_down_services)
    ex_data "t1" "t2" ex_env
  = ({| world := addMessage "th" "user" "draw a cat" "t1" (world ex_env);
        lexia := [SendError "Error processing message: 503 Service Unavailable"] |},
     Normal tt).
Proof.
  apply (completion_call_failure (rt := reference_runtime) (sv := ex_down_services)
           ex_data "t1" "t2" "503 Service Unavailable" ex_env).
  - reflexivity.
  - intros; reflexivity.
Defined.

Lemma ex_broken_stream_emits :
  emits (forAwait (rt := reference_runtime) ex_broken_stream initial_locals)
    [StreamChunk "Hello"] (Throw "connection reset").
Proof. intros e. reflexivity. Defined.

Lemma stream_failure_witness :
  processMessage (rt := reference_runtime) (sv := ex_broken_services)
    ex_data "t1" "t2" ex_env
  = ({| world := addMessage "th" "user" "draw a cat" "t1" (world ex_env);
        lexia := [StreamChunk "Hello";
                  SendError "Error processing message: connection reset"] |},
     Normal tt).
Proof.
  apply (stream_failure (rt := reference_runtime) (sv := ex_broken_services)
           ex_data "t1" "t2" ex_broken_stream [StreamChunk "Hello"]
           "connection reset" ex_env).
  - reflexivity.
  - intros; reflexivity.
  - exact ex_broken_stream_emits.
Defined.

Lemma ex_text_stream_emits :
  emits (forAwait (rt := reference_runtime) ex_text_stream initial_locals)
    [StreamChunk "Hello"]
    (Normal {| fullResponse := "Hello"; usageInfo := None; functionCalls := [] |}).
Proof. intros e. reflexivity. Defined.

Lemma ex_env_reachable : reachable (world ex_env).
Proof. apply reach_new. Defined.

Lemma request_stores_both_turns_witness :
  exists text tools earlier,
    Forall2 (fun fc r => exists cs',
               emits (executeFunctionCall (rt := reference_runtime)
                        (sv := ex_services) fc ex_data) cs' (Normal r))
            [ex_bad_call] tools /\
    last (lexia (processMessage (rt := reference_runtime) (sv := ex_services)
                   ex_data "t1" "t2" ex_env).1)
      = Some (CompleteResponse text None (first_fileUrl tools)) /\
    text = EmptyString +:+ concat_strings (map result tools) /\
    history "th" (world (processMessage (rt := reference_runtime)
                           (sv := ex_services) ex_data "t1" "t2" ex_env).1)
      = earlier ++ [ mkMessage "user" "draw a cat" "t1";
                     mkMessage "assistant" text "t2" ].
Proof.
  apply (request_stores_both_turns (rt := reference_runtime) (sv := ex_services)
           ex_data "t1" "t2" ex_bad_stream ex_bad_locals
           [StreamChunk (announceMsg (Some "generate_image"))] ex_env).
  - reflexivity.
  - intros; reflexivity.
  - exact ex_bad_stream_emits.
  - exact ex_env_reachable.
  - cbn. lia.
Defined.

Lemma user_message_sent_twice_witness :
  exists before,
    formatted_messages ex_data "t1" (world ex_env) =
    before ++ [ {| msg_role := "user"; msg_content := Text "draw a cat" |};
                {| msg_role := "user"; msg_content := Text "draw a cat" |} ].
Proof.
  apply (user_message_sent_twice (rt := reference_runtime) (sv := ex_services)
           ex_data "t1" "t2" ex_env).
  - reflexivity.
  - reflexivity.
  - exact ex_env_reachable.
  - cbn. lia.
Defined.

Lemma pdf_failure_is_ignored_witness :
  processMessage (rt := reference_runtime) (sv := ex_failing_services)
    ex_pdf_data "t1" "t2" ex_env
  = processMessage (rt := reference_runtime) (sv := ex_failing_services)
      (without_file ex_pdf_data) "t1" "t2" ex_env.
Proof.
  apply (pdf_failure_is_ignored (rt := reference_runtime) (sv := ex_failing_services)
           ex_pdf_data "t1" "t2" "unreadable file" ex_env); reflexivity.
Defined.

Lemma argument_fragments_concatenate_witness :
  exists cs,
    forEach ex_fragment_deltas (processToolCall (rt := reference_runtime))
      [ex_slot EmptyString] ex_env
    = (push_calls cs ex_env, Normal [ex_slot (frag1 +:+ frag2)]).
Proof.
  destruct (argument_fragments_concatenate (rt := reference_runtime) 0
              ex_fragment_deltas [ex_slot EmptyString] (ex_slot EmptyString)
              eq_refl ltac:(repeat constructor)) as [cs Hem].
  exists cs. rewrite (Hem ex_env). reflexivity.
Defined.
